(** * discord-timezone-helper: the screenshot cache and the embed fragment

    A shallow embedding of [src/entry.mjs]: the cache-key derivation
    [toScreenshotCacheSlug], the [/embed] handler's row construction and
    the [/screenshot.png] handler's cache lookup, invalidation and store.

    A [string] lists the code units of a JavaScript string (code units
    below 256).  A query value is a string or an array of strings, as
    [QueryDictionary] has it.  The runtime's [localeCompare], the Temporal
    library, the headless browser and [randomUUID] are outside the
    repository: they enter as parameters. *)

From Stdlib Require Import ZArith Ascii.
From stdpp Require Import base list strings pretty sorting gmap.

Local Open Scope Z_scope.

(** ** Exceptions *)

Inductive Error : Type :=
| RangeError
| TypeError
| ENOENT
| CaptureError.

(** A computation that returns or throws. *)
Inductive result (A : Type) : Type :=
| Ok (a : A)
| Throw (e : Error).

Arguments Ok {A} a.
Arguments Throw {A} e.

#[global] Instance result_ret : MRet result := fun A a => Ok a.

#[global] Instance result_bind : MBind result := fun A B f m =>
  match m with
  | Ok a => f a
  | Throw e => Throw e
  end.

(** [arr.map(f)] where [f] may throw: the first exception, left to right. *)
Fixpoint mapResult {A B} (f : A -> result B) (l : list A) : result (list B) :=
  match l with
  | [] => Ok []
  | x :: l' => y ← f x; ys ← mapResult f l'; Ok (y :: ys)
  end.

Definition succeeds {A} (r : result A) : Prop :=
  match r with
  | Ok _ => True
  | Throw _ => False
  end.

(** ** JavaScript values of the query dictionary *)

Module Js.

(** A value of [req.query]: one string, or the strings of a repeated key. *)
Inductive QueryValue : Type :=
| QStr (s : string)
| QArr (l : list string).

#[global] Instance QueryValue_eq_dec : EqDecision QueryValue.
Proof. solve_decision. Defined.

(** [Object.entries(query)]: the own properties in enumeration order. *)
Definition QueryDictionary : Type := list (string * QueryValue).

(** [Array.prototype.join] on an array of strings. *)
Fixpoint join (sep : string) (l : list string) : string :=
  match l with
  | [] => ""
  | [x] => x
  | x :: l' => x +:+ sep +:+ join sep l'
  end.

(** [String.prototype.split] with a one-character separator: the pieces
    between the separators, so that the empty string gives one empty piece. *)
Fixpoint split (c : ascii) (s : string) : list string :=
  match s with
  | EmptyString => [""]
  | String a s' =>
      if Ascii.eqb a c then "" :: split c s'
      else match split c s' with
           | [] => [String a ""]
           | p :: ps => String a p :: ps
           end
  end.

(** Does the character occur in the string? *)
Fixpoint occurs (c : ascii) (s : string) : bool :=
  match s with
  | EmptyString => false
  | String a s' => Ascii.eqb a c || occurs c s'
  end.

(** [ToString] of a query value, as a template literal, [==] against a
    string and unary plus apply it: an array is joined with commas. *)
Definition toString (v : QueryValue) : string :=
  match v with
  | QStr s => s
  | QArr l => join "," l
  end.

(** [s == v] for a string [s]: string equality, an array being converted
    to its string first. *)
Definition looseEq (s : string) (v : QueryValue) : bool :=
  String.eqb s (toString v).

(** [query.key]: the value of an own property, [undefined] as [None]. *)
Fixpoint get (q : QueryDictionary) (key : string) : option QueryValue :=
  match q with
  | [] => None
  | (k, v) :: q' => if decide (k = key) then Some v else get q' key
  end.

(** *** Numbers

    A Number: [NaN], an infinity, or a finite value [m * 10^e].  A finite
    binary64 is such a value (every binary fraction is a decimal one); the
    parsers of numeric literals below use the same type for the
    mathematical value of a literal, which [roundToBinary64] then rounds.
    The sign of a zero is not kept: the handler hands its numbers to an
    integer conversion that does not look at it. *)
Inductive Number : Type :=
| NaN
| Infinity (negative : bool)
| Finite (m e : Z).

(** The binary64 nearest to the positive rational [p / q], a tie going to
    the even significand: [Some (m, e)] for [m * 2^e], the significand of
    at most 53 bits and the exponent not below that of the subnormals;
    [None] when the rounded value is beyond the largest finite binary64. *)
Definition nearestBinary64 (p q : Z) : option (Z * Z) :=
  let scaled (e : Z) :=
    if 0 <=? e then (p, q * 2 ^ e) else (p * 2 ^ (- e), q) in
  let e0 := Z.log2 p - Z.log2 q - 53 in
  let '(n0, d0) := scaled e0 in
  let e := Z.max (if 2 ^ 53 <=? n0 / d0 then e0 + 1 else e0) (-1074) in
  let '(n, d) := scaled e in
  let m := n / d in
  let r := n mod d in
  let m' :=
    if 2 * r <? d then m
    else if d <? 2 * r then m + 1
    else if Z.even m then m else m + 1 in
  if 2 ^ (1024 - e) <=? m' then None else Some (m', e).

(** [m * 2^e] as a Number, an integer with exponent 0. *)
Definition ofBinary (m e : Z) : Number :=
  if 0 <=? e then Finite (m * 2 ^ e) 0
  else if m mod 2 ^ (- e) =? 0 then Finite (m / 2 ^ (- e)) 0
  else Finite (m * 5 ^ (- e)) e.

(** The Number value for a mathematical value: the nearest binary64, an
    infinity beyond the finite ones. *)
Definition roundToBinary64 (n : Number) : Number :=
  match n with
  | Finite m e =>
      if m =? 0 then Finite 0 0
      else
        let '(p, q) :=
          if 0 <=? e then (Z.abs m * 10 ^ e, 1) else (Z.abs m, 10 ^ (- e)) in
        match nearestBinary64 p q with
        | Some (b, x) => ofBinary (Z.sgn m * b) x
        | None => Infinity (m <? 0)
        end
  | _ => n
  end.

Definition isWhiteSpace (a : ascii) : bool :=
  match N_of_ascii a with
  | 9 | 10 | 11 | 12 | 13 | 32 | 160 => true
  | _ => false
  end%N.

Fixpoint trimStart (s : string) : string :=
  match s with
  | EmptyString => ""
  | String a s' => if isWhiteSpace a then trimStart s' else s
  end.

Definition trim (s : string) : string :=
  String.rev (trimStart (String.rev (trimStart s))).

(** The value of a digit in the given base, letters counting from ten. *)
Definition digitValue (base : Z) (a : ascii) : option Z :=
  let n := Z.of_N (N_of_ascii a) in
  let v :=
    if (48 <=? n) && (n <=? 57) then Some (n - 48)
    else if (97 <=? n) && (n <=? 122) then Some (n - 87)
    else if (65 <=? n) && (n <=? 90) then Some (n - 55)
    else None in
  match v with
  | Some d => if d <? base then Some d else None
  | None => None
  end.

(** The longest prefix of digits, read as a number from [acc], with the
    count of digits and the rest of the string. *)
Fixpoint spanDigits (base : Z) (acc : Z) (count : Z) (s : string)
  : Z * Z * string :=
  match s with
  | EmptyString => (acc, count, "")
  | String a s' =>
      match digitValue base a with
      | Some d => spanDigits base (acc * base + d) (count + 1) s'
      | None => (acc, count, s)
      end
  end.

(** [NonDecimalIntegerLiteral] after its prefix: digits only, at least
    one; its mathematical value. *)
Definition nonDecimal (base : Z) (s : string) : Number :=
  match spanDigits base 0 0 s with
  | (v, count, EmptyString) => if 0 <? count then Finite v 0 else NaN
  | _ => NaN
  end.

(** [ExponentPart] after its indicator: an optionally signed integer that
    ends the literal. *)
Definition exponentPart (s : string) : option Z :=
  let '(negative, digits) :=
    match s with
    | String "+" s' => (false, s')
    | String "-" s' => (true, s')
    | _ => (false, s)
    end in
  match spanDigits 10 0 0 digits with
  | (v, count, EmptyString) =>
      if 0 <? count then Some (if negative then - v else v) else None
  | _ => None
  end.

(** [StrUnsignedDecimalLiteral]: its mathematical value. *)
Definition unsignedDecimal (s : string) : Number :=
  if String.eqb s "Infinity" then Infinity false
  else
    let '(ip, icount, r1) := spanDigits 10 0 0 s in
    let '(m, fcount, r2) :=
      match r1 with
      | String "." r => spanDigits 10 ip 0 r
      | _ => (ip, 0, r1)
      end in
    if icount + fcount =? 0 then NaN
    else
      match r2 with
      | EmptyString => Finite m (- fcount)
      | String c r3 =>
          if Ascii.eqb c "e" || Ascii.eqb c "E" then
            match exponentPart r3 with
            | Some x => Finite m (x - fcount)
            | None => NaN
            end
          else NaN
      end.

Definition negate (n : Number) : Number :=
  match n with
  | NaN => NaN
  | Infinity b => Infinity (negb b)
  | Finite m e => Finite (- m) e
  end.

(** The mathematical value of a [StringNumericLiteral]: white space is
    trimmed, the empty string is zero, anything that is not a
    [StrNumericLiteral] is [NaN]. *)
Definition StringNumericValue (s : string) : Number :=
  match trim s with
  | EmptyString => Finite 0 0
  | String "0" (String "x" r) | String "0" (String "X" r) => nonDecimal 16 r
  | String "0" (String "o" r) | String "0" (String "O" r) => nonDecimal 8 r
  | String "0" (String "b" r) | String "0" (String "B" r) => nonDecimal 2 r
  | String "+" r => unsignedDecimal r
  | String "-" r => negate (unsignedDecimal r)
  | t => unsignedDecimal t
  end.

(** [StringToNumber]: the value of the literal as a binary64. *)
Definition StringToNumber (s : string) : Number :=
  roundToBinary64 (StringNumericValue s).

(** The operand of a unary plus in the handler: a query value, or the
    number literal that [??] supplies for a missing one. *)
Definition unaryPlus (v : QueryValue + Z) : Number :=
  match v with
  | inl q => StringToNumber (toString q)
  | inr d => Finite d 0
  end.

(** [a ?? b] where [a] is a query value and [b] a number literal. *)
Definition orNumber (a : option QueryValue) (b : Z) : QueryValue + Z :=
  match a with
  | Some v => inl v
  | None => inr b
  end.

End Js.

Import Js.

(** ** The cache-key deriver *)

Section Slug.

(** [a.localeCompare(b)]: negative, zero or positive. *)
Variable localeCompare : string -> string -> Z.

(** One step of a stable sort with comparator [([a], [b]) => a.localeCompare(b)]:
    [x] stood before every element of [l] and stays before those it does
    not compare greater than. *)
Fixpoint sortInsert (x : string * QueryValue) (l : QueryDictionary)
  : QueryDictionary :=
  match l with
  | [] => [x]
  | y :: l' =>
      if localeCompare (fst x) (fst y) <=? 0 then x :: y :: l'
      else y :: sortInsert x l'
  end.

(** [Array.prototype.sort]: stable. *)
Fixpoint sort (l : QueryDictionary) : QueryDictionary :=
  match l with
  | [] => []
  | x :: l' => sortInsert x (sort l')
  end.

(** [`${key}:${Array.isArray(value) ? value.join(',') : value}`]. *)
Definition formatEntry (e : string * QueryValue) : string :=
  fst e +:+ ":" +:+
    match snd e with
    | QArr l => join "," l
    | QStr s => s
    end.

Definition toScreenshotCacheSlug (query : QueryDictionary) : string :=
  join ";" (map formatEntry (sort query)).

End Slug.

(** Comparison by code units: a sample comparator for evaluating examples.
    On keys made of lower-case ASCII letters it orders as [localeCompare]. *)
Definition codeUnitCompare (a b : string) : Z :=
  match String.compare a b with
  | Lt => -1
  | Eq => 0
  | Gt => 1
  end.

(** ** The Temporal library, as the handler uses it *)

(** [{ dateStyle, timeStyle }]. *)
Record FormatOptions : Type := {
  dateStyle : string;
  timeStyle : string
}.

(** The calendar fields of a property bag after their conversion to integers. *)
Record DateTimeFields : Type := {
  year : Z;
  month : Z;
  day : Z;
  hour : Z;
  minute : Z
}.

(** The operations of [temporal-polyfill] that the handler calls.
    [resolveZoned] is [Temporal.ZonedDateTime.from] on a property bag whose
    fields are integers already: it looks the time zone up, constrains the
    fields and finds the instant, or throws. *)
Class Temporal : Type := {
  ZonedDateTime : Type;
  Instant : Type;
  resolveZoned : QueryValue -> DateTimeFields -> result ZonedDateTime;
  toInstant : ZonedDateTime -> Instant;
  toZonedDateTimeISO : Instant -> string -> result ZonedDateTime;
  zonedToLocaleString :
    ZonedDateTime -> QueryValue -> FormatOptions -> result string;
  instantToLocaleString : Instant -> string -> FormatOptions -> string
}.

Module Embed.

(** [ToIntegerWithTruncation], which [from] applies to [year], [hour] and
    [minute]: [NaN] and the infinities are a [RangeError]. *)
Definition toIntegerWithTruncation (n : Number) : result Z :=
  match n with
  | NaN | Infinity _ => Throw RangeError
  | Finite m e => Ok (if 0 <=? e then m * 10 ^ e else Z.quot m (10 ^ (- e)))
  end.

(** [ToPositiveIntegerWithTruncation], which [from] applies to [month] and
    [day]. *)
Definition toPositiveIntegerWithTruncation (n : Number) : result Z :=
  i ← toIntegerWithTruncation n;
  if i <=? 0 then Throw RangeError else Ok i.

(** The argument of [Temporal.ZonedDateTime.from] at lines 83-90. *)
Record PropertyBag : Type := {
  bag_timeZone : QueryValue;
  bag_year : Number;
  bag_month : Number;
  bag_day : Number;
  bag_hour : Number;
  bag_minute : Number
}.

(** The first thing [from] does with a property bag. *)
Definition prepareFields (bag : PropertyBag) : result DateTimeFields :=
  d ← toPositiveIntegerWithTruncation (bag_day bag);
  h ← toIntegerWithTruncation (bag_hour bag);
  mi ← toIntegerWithTruncation (bag_minute bag);
  mo ← toPositiveIntegerWithTruncation (bag_month bag);
  y ← toIntegerWithTruncation (bag_year bag);
  Ok {| year := y; month := mo; day := d; hour := h; minute := mi |}.

(** An entry of [keyFormats]. *)
Record Format : Type := {
  name : string;
  timezone : string;
  locale : string
}.

#[global] Instance Format_eq_dec : EqDecision Format.
Proof. solve_decision. Defined.

(** The five built-in rows, lines 54-78. *)
Definition builtinFormats : list Format :=
  [ {| name := "Ward Radio HQ"; timezone := "America/Los_Angeles";
       locale := "en-US" |};
    {| name := "US East Coasters"; timezone := "America/New_York";
       locale := "en-US" |};
    {| name := "Mormon Central Time (Utah)"; timezone := "America/Denver";
       locale := "en-US" |};
    {| name := "Sydney, AU"; timezone := "Australia/Sydney";
       locale := "en-AU" |};
    {| name := "UTC/Zulu/GMT"; timezone := "Etc/UTC"; locale := "en-GB" |} ].

(** Line 79: [additionalTimezones] as a list of zone names. *)
Definition additionalZones (query : QueryDictionary) : list string :=
  match get query "additionalTimezones" with
  | Some (QStr s) => split "," s
  | Some (QArr l) => l
  | None => []
  end.

(** Line 80: the row of an additional zone. *)
Definition additionalFormat (tzString : string) : Format :=
  {| name := tzString; timezone := tzString; locale := "en-US" |}.

Definition keyFormats (query : QueryDictionary) : list Format :=
  builtinFormats ++ map additionalFormat (additionalZones query).

(** Line 51. *)
Definition mainTimezone (query : QueryDictionary) : QueryValue :=
  default (QStr "America/Denver") (get query "tz").

(** Lines 83-90, the argument of [from]. *)
Definition targetBag (query : QueryDictionary) : PropertyBag :=
  {| bag_timeZone := mainTimezone query;
     bag_year := unaryPlus (orNumber (get query "year") 2024);
     bag_month := unaryPlus (orNumber (get query "month") 1);
     bag_day := unaryPlus (orNumber (get query "day") 12);
     bag_hour := unaryPlus (orNumber (get query "hour") 16);
     bag_minute := unaryPlus (orNumber (get query "minute") 0) |}.

(** The integer fields that [from] reads off [targetBag]. *)
Definition targetFields (query : QueryDictionary) : result DateTimeFields :=
  prepareFields (targetBag query).

(** Line 114, the condition: no entry of [keyFormats] has the main zone. *)
Definition prependsMainRow (query : QueryDictionary) : bool :=
  negb (existsb (fun f => looseEq (timezone f) (mainTimezone query))
          (keyFormats query)).

(** Line 114, the locale of the prepended row. *)
Definition requestLocale (query : QueryDictionary) : QueryValue :=
  default (QStr "en-US") (get query "locale").

Definition formatOptions : FormatOptions :=
  {| dateStyle := "long"; timeStyle := "long" |}.

Definition styles : list string := [ "normal"; "wingdings"; "aurebesh" ].

Definition nl : string := String (ascii_of_nat 10) "".
Definition dquote : string := String (ascii_of_nat 34) "".

Fixpoint indent (n : nat) : string :=
  match n with
  | O => ""
  | S n' => String " " (indent n')
  end.

Definition tr (area time : string) : string :=
  "<tr><td>" +:+ area +:+ "</td><td>" +:+ time +:+ "</td></tr>".

Section WithTemporal.

Context {T : Temporal}.

(** Lines 83-90. *)
Definition targetDate (query : QueryDictionary) : result ZonedDateTime :=
  fields ← targetFields query;
  resolveZoned (mainTimezone query) fields.

(** Lines 116-125: the point in time a row shows. *)
Definition resultDatetime (query : QueryDictionary) (target : ZonedDateTime)
    (f : Format) : result ZonedDateTime :=
  if looseEq (timezone f) (mainTimezone query) then Ok target
  else toZonedDateTimeISO (toInstant target) (timezone f).

(** Lines 115-127: the row of one entry of [keyFormats]. *)
Definition formatRow (query : QueryDictionary) (target : ZonedDateTime)
    (f : Format) : result string :=
  dt ← resultDatetime query target f;
  time ← zonedToLocaleString dt (QStr (locale f)) formatOptions;
  Ok (tr (name f) time).

(** Line 114: the row of the main zone, or the empty string. *)
Definition mainRow (query : QueryDictionary) (target : ZonedDateTime)
  : result string :=
  if prependsMainRow query then
    time ← zonedToLocaleString target (requestLocale query) formatOptions;
    Ok (tr (toString (mainTimezone query)) time)
  else Ok "".

(** Lines 115-128 before the [join]: one row per entry of [keyFormats]. *)
Definition formatRows (query : QueryDictionary) (target : ZonedDateTime)
  : result (list string) :=
  mapResult (formatRow query target) (keyFormats query).

(** The rows of the table body: the prepended row, if any, then the rows
    of [keyFormats]. *)
Definition tableRows (query : QueryDictionary) (target : ZonedDateTime)
  : result (list string) :=
  main ← mainRow query target;
  rows ← formatRows query target;
  Ok ((if prependsMainRow query then [main] else []) ++ rows).

(** Lines 103-132: the block of one style, [now] being the reading of
    [Temporal.Now.instant()] made for it. *)
Definition styleBlock (query : QueryDictionary) (target : ZonedDateTime)
    (now : Instant) (clss : string) : result string :=
  main ← mainRow query target;
  rows ← formatRows query target;
  Ok (nl +:+
      indent 16 +:+ "<div class=" +:+ dquote +:+ clss +:+ dquote +:+ ">" +:+ nl +:+
      indent 20 +:+ "<p>Server time: " +:+
        instantToLocaleString now "en-US" formatOptions +:+ "</p>" +:+ nl +:+
      indent 20 +:+ "<table>" +:+ nl +:+
      indent 24 +:+ "<thead>" +:+ nl +:+
      indent 28 +:+ "<tr>" +:+ nl +:+
      indent 32 +:+ "<th>Area</th>" +:+ nl +:+
      indent 32 +:+ "<th>Time</th>" +:+ nl +:+
      indent 28 +:+ "</tr>" +:+ nl +:+
      indent 24 +:+ "</thead>" +:+ nl +:+
      indent 24 +:+ "<tbody>" +:+ nl +:+
      indent 28 +:+ main +:+ nl +:+
      indent 28 +:+ join "" rows +:+ nl +:+
      indent 24 +:+ "</tbody>" +:+ nl +:+
      indent 20 +:+ "</table>" +:+ nl +:+
      indent 16 +:+ "</div>" +:+ nl +:+
      indent 12).

(** Lines 83-134: what replaces [<%content%>], [clock] giving the reading
    of the clock made for each style. *)
Definition fragment (query : QueryDictionary) (clock : string -> Instant)
  : result string :=
  target ← targetDate query;
  blocks ← mapResult (fun clss => styleBlock query target (clock clss) clss)
             styles;
  Ok (join nl blocks).

End WithTemporal.

End Embed.

(** ** The screenshot cache *)

Module Cache.

(** [screenshotCache]: a JavaScript object from slug to path, its own
    properties in enumeration order.  The slugs are empty or contain a
    colon, so none is an array index and none names an inherited property. *)
Definition Index : Type := list (string * string).

(** [key in obj]. *)
Definition has (obj : Index) (key : string) : bool :=
  existsb (fun e => String.eqb (fst e) key) obj.

(** [obj[key]], [undefined] as [None]. *)
Fixpoint lookup (obj : Index) (key : string) : option string :=
  match obj with
  | [] => None
  | (k, v) :: obj' => if String.eqb k key then Some v else lookup obj' key
  end.

(** [obj[key] = value]: an existing property keeps its place, a new one
    goes last. *)
Fixpoint assign (obj : Index) (key value : string) : Index :=
  match obj with
  | [] => [(key, value)]
  | (k, v) :: obj' =>
      if String.eqb k key then (k, value) :: obj'
      else (k, v) :: assign obj' key value
  end.

(** [delete obj[key]]. *)
Definition remove (obj : Index) (key : string) : Index :=
  filter (fun e => fst e ≠ key) obj.

(** Is [obj[key]] truthy: a string that is not empty. *)
Definition truthy (v : option string) : bool :=
  match v with
  | Some (String _ _) => true
  | _ => false
  end.

(** *** [JSON.stringify(obj, null, 4)] *)

Definition hexDigit (n : N) : ascii :=
  ascii_of_N (if (n <? 10)%N then 48 + n else 87 + n)%N.

(** [QuoteJSONString], one code unit. *)
Definition escapeChar (a : ascii) : string :=
  let n := N_of_ascii a in
  match n with
  | 8 => "\b"
  | 9 => "\t"
  | 10 => "\n"
  | 12 => "\f"
  | 13 => "\r"
  | 34 => String "\" (String a "")
  | 92 => "\\"
  | _ =>
      if (n <? 32)%N then
        "\u00" +:+ String (hexDigit (n / 16)) (String (hexDigit (n mod 16)) "")
      else String a ""
  end%N.

Fixpoint escape (s : string) : string :=
  match s with
  | EmptyString => ""
  | String a s' => escapeChar a +:+ escape s'
  end.

Definition quoteJSONString (s : string) : string :=
  Embed.dquote +:+ escape s +:+ Embed.dquote.

Definition stringifyProperty (e : string * string) : string :=
  Embed.indent 4 +:+ quoteJSONString (fst e) +:+ ": " +:+ quoteJSONString (snd e).

Definition JSON_stringify (obj : Index) : string :=
  match obj with
  | [] => "{}"
  | _ =>
      "{" +:+ Embed.nl +:+
      join ("," +:+ Embed.nl) (map stringifyProperty obj) +:+
      Embed.nl +:+ "}"
  end.

(** *** The file system and the handler's state *)

(** What a path names: a file with its contents, or a symbolic link
    whose target is missing. *)
Inductive Node : Type :=
| File (data : string)
| Dangling.

(** The directory entries under [__dirname], by path, and the index in
    memory.  Directories are not modelled; [.tmp] exists, so that
    [writeFile] succeeds.  A link whose target is there reads as the file
    it leads to. *)
Record State : Type := {
  files : gmap string Node;
  screenshotCache : Index
}.

(** A step of the handler: it returns or throws, and leaves a state
    either way. *)
Definition M (A : Type) : Type := State -> result A * State.

#[global] Instance M_ret : MRet M := fun A a st => (Ok a, st).

#[global] Instance M_bind : MBind M := fun A B f m st =>
  match m st with
  | (Ok a, st1) => f a st1
  | (Throw e, st1) => (Throw e, st1)
  end.

(** [existsSync(path)]: it follows links, so a dangling one does not
    exist. *)
Definition existsSync (path : string) : M bool := fun st =>
  (Ok match files st !! path with
      | Some (File _) => true
      | Some Dangling | None => false
      end, st).

(** [readFile(path)]. *)
Definition readFile (path : string) : M string := fun st =>
  match files st !! path with
  | Some (File data) => (Ok data, st)
  | Some Dangling | None => (Throw ENOENT, st)
  end.

(** [rm(path)], no options: it removes the directory entry, a link
    itself and not its target; a missing path is an error, [force] being
    off. *)
Definition rm (path : string) : M unit := fun st =>
  match files st !! path with
  | Some _ =>
      (Ok tt, {| files := delete path (files st);
                 screenshotCache := screenshotCache st |})
  | None => (Throw ENOENT, st)
  end.

(** [writeFile(path, data)]: the path then reads as the data; through a
    dangling link the write creates the target. *)
Definition writeFile (path data : string) : M unit := fun st =>
  (Ok tt, {| files := <[path := File data]> (files st);
             screenshotCache := screenshotCache st |}).

(** [key in screenshotCache]. *)
Definition cacheHas (key : string) : M bool := fun st =>
  (Ok (has (screenshotCache st) key), st).

(** [screenshotCache[key]]. *)
Definition cacheGet (key : string) : M (option string) := fun st =>
  (Ok (lookup (screenshotCache st) key), st).

(** [screenshotCache[key] = value]. *)
Definition cacheSet (key value : string) : M unit := fun st =>
  (Ok tt, {| files := files st;
             screenshotCache := assign (screenshotCache st) key value |}).

(** [delete screenshotCache[key]]. *)
Definition cacheDelete (key : string) : M unit := fun st =>
  (Ok tt, {| files := files st;
             screenshotCache := remove (screenshotCache st) key |}).

(** [JSON.stringify(screenshotCache, null, 4)]. *)
Definition cacheStringify : M string := fun st =>
  (Ok (JSON_stringify (screenshotCache st)), st).

(** A path handed to the file system: [undefined] is no file. *)
Definition pathOf (v : option string) : string :=
  match v with
  | Some path => path
  | None => ""
  end.

(** [path.join] of segments that need no normalising. *)
Definition pathJoin (segments : list string) : string := join "/" segments.

Section Handler.

(** [__dirname]. *)
Variable dirname : string.

(** The headless browser: navigate to [/embed] with the query, locate the
    table, take the clipped screenshot (lines 158-173). *)
Variable capture : QueryDictionary -> result string.

(** [a.localeCompare(b)]. *)
Variable localeCompare : string -> string -> Z.

Definition cacheJson : string := pathJoin [dirname; ".tmp"; "cache.json"].

(** Line 175, the right-hand side. *)
Definition freshPath (uuid : string) : string :=
  pathJoin [dirname; ".tmp"; uuid +:+ ".png"].

(** Lines 154-155: delete the file, then the entry. *)
Definition invalidate (cacheSlug : string) : M unit :=
  path ← cacheGet cacheSlug;
  rm (pathOf path);;
  cacheDelete cacheSlug.

(** Line 149: [cacheSlug in screenshotCache && existsSync(...)]. *)
Definition isHit (cacheSlug : string) : M bool :=
  present ← cacheHas cacheSlug;
  if present : bool then
    path ← cacheGet cacheSlug;
    existsSync (pathOf path)
  else mret false.

(** Lines 149-156: the cached image on a hit; on a miss nothing, after
    the invalidation of an entry that is there. *)
Definition lookupCache (cacheSlug : string) : M (option string) :=
  hit ← isHit cacheSlug;
  if hit : bool then
    path ← cacheGet cacheSlug;
    image ← readFile (pathOf path);
    mret (Some image)
  else
    path ← cacheGet cacheSlug;
    if truthy path then
      invalidate cacheSlug;;
      mret None
    else mret None.

(** Lines 175-178: enter the path, write the image, rewrite the index. *)
Definition store (cacheSlug uuid image : string) : M unit :=
  cacheSet cacheSlug (freshPath uuid);;
  path ← cacheGet cacheSlug;
  writeFile (pathOf path) image;;
  json ← cacheStringify;
  writeFile cacheJson json.

(** Lines 144-181: the bytes sent, [uuid] being what [randomUUID()]
    returns if it is called. *)
Definition screenshot (query : QueryDictionary) (uuid : string) : M string :=
  let cacheSlug := toScreenshotCacheSlug localeCompare query in
  hit ← lookupCache cacheSlug;
  match hit with
  | Some image => mret image
  | None =>
      image ← (fun st => (capture query, st));
      store cacheSlug uuid image;;
      mret image
  end.

(** The persisted index agrees with the index in memory. *)
Definition persisted (st : State) : Prop :=
  files st !! cacheJson = Some (File (JSON_stringify (screenshotCache st))).

End Handler.

End Cache.

(** ** Vocabulary of the statements *)

(** The order the sort compares entries by: the comparator on the keys. *)
Definition keyLe (cmp : string -> string -> Z) (e1 e2 : string * QueryValue)
  : Prop :=
  cmp (fst e1) (fst e2) <= 0.

(** A consistent comparator, as [Array.prototype.sort] expects one. *)
Record Consistent (cmp : string -> string -> Z) : Prop := {
  cmp_flip : forall a b, cmp a b < 0 <-> 0 < cmp b a;
  cmp_trans : forall a b c, cmp a b <= 0 -> cmp b c <= 0 -> cmp a c <= 0
}.

(** The comparator tells any two different keys of the mapping apart. *)
Definition separatesKeys (cmp : string -> string -> Z) (q : QueryDictionary)
  : Prop :=
  forall a b, a ∈ map fst q -> b ∈ map fst q -> cmp a b = 0 -> a = b.

(** The formatting of a pair in the words of the specification:
    [key:value], a sequence value comma-joined in its order; the joining
    is the library's [String.concat]. *)
Definition formatPairSpec (e : string * QueryValue) : string :=
  fst e +:+ ":" +:+
    match snd e with
    | QStr s => s
    | QArr l => String.concat "," l
    end.

(** Keys and value texts that the key format carries unambiguously: no
    colon in a key, no semicolon in a value text. *)
Definition separatorFree (q : QueryDictionary) : Prop :=
  Forall (fun e => occurs ":" (fst e) = false
                   /\ occurs ";" (toString (snd e)) = false) q.

(** The soft hyphen U+00AD, which the locale comparison ignores. *)
Definition softHyphen : ascii := ascii_of_nat 173.

Fixpoint withoutSoftHyphens (s : string) : string :=
  match s with
  | EmptyString => ""
  | String a s' =>
      if Ascii.eqb a softHyphen then withoutSoftHyphens s'
      else String a (withoutSoftHyphens s')
  end.

(** A comparator that, as [localeCompare] does, takes keys that differ
    in soft hyphens only for equal, and compares by code units
    otherwise: a sample of a comparison that ties different keys. *)
Definition hyphenBlindCompare (a b : string) : Z :=
  codeUnitCompare (withoutSoftHyphens a) (withoutSoftHyphens b).

(** A pair as the key shows it: the key and the text of the value. *)
Definition renderPair (e : string * QueryValue) : string * string :=
  (fst e, toString (snd e)).

(** The text of a parameter's value, [None] for a missing parameter. *)
Definition valueText (q : QueryDictionary) (key : string) : option string :=
  toString <$> get q key.

(** A stand-in for the Temporal library that keeps a zone name and a count
    of minutes; it serves to run the handlers on examples. *)
Definition sampleTemporal : Temporal :=
  {| ZonedDateTime := string * Z;
     Instant := Z;
     resolveZoned tz f :=
       match tz with
       | QStr z =>
           Ok (z, (((year f * 12 + month f) * 31 + day f) * 24 + hour f) * 60
                  + minute f)
       | QArr _ => Throw TypeError
       end;
     toInstant := snd;
     toZonedDateTimeISO i z := Ok (z, i);
     zonedToLocaleString dt _ _ := Ok (fst dt);
     instantToLocaleString _ _ _ := "now" |}.

(** The block of one style in the words of the template of lines
    103-132: the server time, the table head and the table body, which
    holds the prepended row or nothing on a line of its own and then the
    rows, one after the other, on the next. *)
Definition blockText (clss serverTime prepended rows : string) : string :=
  Embed.nl +:+
  "                <div class=" +:+ Embed.dquote +:+ clss +:+ Embed.dquote +:+ ">"
    +:+ Embed.nl +:+
  "                    <p>Server time: " +:+ serverTime +:+ "</p>" +:+ Embed.nl +:+
  "                    <table>" +:+ Embed.nl +:+
  "                        <thead>" +:+ Embed.nl +:+
  "                            <tr>" +:+ Embed.nl +:+
  "                                <th>Area</th>" +:+ Embed.nl +:+
  "                                <th>Time</th>" +:+ Embed.nl +:+
  "                            </tr>" +:+ Embed.nl +:+
  "                        </thead>" +:+ Embed.nl +:+
  "                        <tbody>" +:+ Embed.nl +:+
  "                            " +:+ prepended +:+ Embed.nl +:+
  "                            " +:+ rows +:+ Embed.nl +:+
  "                        </tbody>" +:+ Embed.nl +:+
  "                    </table>" +:+ Embed.nl +:+
  "                </div>" +:+ Embed.nl +:+
  "            ".

(** The fragment that shows the given rows: the blocks of the styles
    normal, wingdings and aurebesh, one per line, each with its own
    reading of the server time, the same prepended row (or none, as the
    empty text) and the same rows. *)
Definition documentText (serverTime : string -> string) (prepended : string)
    (rows : list string) : string :=
  String.concat Embed.nl
    (map (fun clss =>
            blockText clss (serverTime clss) prepended (String.concat "" rows))
       ["normal"; "wingdings"; "aurebesh"]).

(** The server time of a block: the reading of the clock made for it, in
    en-US. *)
Definition serverTime {T : Temporal} (clock : string -> Instant) (clss : string)
  : string :=
  instantToLocaleString (clock clss) "en-US" Embed.formatOptions.

(** The number of occurrences of a character. *)
Fixpoint countChar (c : ascii) (s : string) : nat :=
  match s with
  | EmptyString => O
  | String a s' => (if Ascii.eqb a c then 1 else 0) + countChar c s'
  end.

(** A stand-in for the Temporal library that knows the listed zones only
    and throws a [RangeError] for any other; it serves to run the
    handlers on examples. *)
Definition knownZonesTemporal (known : list string) : Temporal :=
  {| ZonedDateTime := string * Z;
     Instant := Z;
     resolveZoned tz f :=
       match tz with
       | QStr z =>
           if bool_decide (z ∈ known) then Ok (z, hour f * 60 + minute f)
           else Throw RangeError
       | QArr _ => Throw TypeError
       end;
     toInstant := snd;
     toZonedDateTimeISO i z :=
       if bool_decide (z ∈ known) then Ok (z, i) else Throw RangeError;
     zonedToLocaleString dt _ _ := Ok (fst dt);
     instantToLocaleString _ _ _ := "now" |}.

(** Do all characters of the string satisfy the test? *)
Fixpoint allChars (P : ascii -> bool) (s : string) : bool :=
  match s with
  | EmptyString => true
  | String a s' => P a && allChars P s'
  end.

(** A parameter that is missing, [v] being its default then, or given as
    the decimal numeral of [v], an integer below 2^53 in magnitude. *)
Definition suppliedAs (o : option QueryValue) (dflt v : Z) : Prop :=
  (o = None /\ v = dflt) \/ (o = Some (QStr (pretty v)) /\ Z.abs v < 2 ^ 53).

(** Is the character a decimal digit? *)
Definition isDigit (a : ascii) : bool :=
  match digitValue 10 a with Some _ => true | None => false end.

(** The state after lines 154-155 have removed the file and the entry of
    a key. *)
Definition invalidated (slug : string) (st : Cache.State) : Cache.State :=
  {| Cache.files :=
       delete (Cache.pathOf (Cache.lookup (Cache.screenshotCache st) slug))
         (Cache.files st);
     Cache.screenshotCache := Cache.remove (Cache.screenshotCache st) slug |}.

(** The entry of the key names a dangling link: what [existsSync] denies
    and [rm] removes. *)
Definition entryDangling (slug : string) (st : Cache.State) : Prop :=
  exists path,
    Cache.lookup (Cache.screenshotCache st) slug = Some path /\ path <> ""
    /\ Cache.files st !! path = Some Cache.Dangling.

(** A key of the shape of a cache key: empty or with a colon. *)
Definition slugShaped (key : string) : Prop :=
  key = "" \/ occurs ":" key = true.

(** An index that the list of its entries models exactly: the keys are
    distinct and of the shape of cache keys, so that none is an array
    index, which an object enumerates before its other keys. *)
Definition objectLike (obj : Cache.Index) : Prop :=
  NoDup (map fst obj) /\ Forall slugShaped (map fst obj).

(** ** Start-up and the sequence of requests *)

Section Startup.

(** [__dirname]. *)
Variable dirname : string.

(** The import of a JSON module: the index that the text of the file
    denotes, or [None] when the import is rejected. *)
Variable parseJson : string -> option Cache.Index.

(** Line 142: the index at start-up, empty when there is no [cache.json]. *)
Definition loadCache (files : gmap string Cache.Node) : option Cache.Index :=
  match files !! Cache.cacheJson dirname with
  | Some (Cache.File text) => parseJson text
  | Some Cache.Dangling | None => Some []
  end.

(** The index in memory is an object that a restart would load. *)
Definition restartable (st : Cache.State) : Prop :=
  objectLike (Cache.screenshotCache st)
  /\ loadCache (Cache.files st) = Some (Cache.screenshotCache st).

(** A request to [/screenshot.png]: its query, what [randomUUID()] gives
    and what the browser does if asked. *)
Record Request : Type := {
  req_query : QueryDictionary;
  req_uuid : string;
  req_capture : result string
}.

(** The handler run on the requests one after the other. *)
Fixpoint serveAll (localeCompare : string -> string -> Z)
    (requests : list Request) (st : Cache.State) : Cache.State :=
  match requests with
  | [] => st
  | r :: rest =>
      serveAll localeCompare rest
        (Cache.screenshot dirname (fun _ => req_capture r) localeCompare
           (req_query r) (req_uuid r) st).2
  end.

End Startup.

(** *** A reader for the texts that [JSON_stringify] writes

    It stands in for the JSON import in examples and serves to show that
    the persisted text loses nothing. *)

Definition unescapeSimple (b : ascii) : option ascii :=
  match N_of_ascii b with
  | 98 => Some (ascii_of_N 8)
  | 116 => Some (ascii_of_N 9)
  | 110 => Some (ascii_of_N 10)
  | 102 => Some (ascii_of_N 12)
  | 114 => Some (ascii_of_N 13)
  | 34 => Some (ascii_of_N 34)
  | 92 => Some (ascii_of_N 92)
  | _ => None
  end%N.

(** The string literal up to its closing quote, and what follows it. *)
Fixpoint readString (s : string) : option (string * string) :=
  match s with
  | EmptyString => None
  | String a s' =>
      if (N_of_ascii a =? 34)%N then Some ("", s')
      else if (N_of_ascii a =? 92)%N then
        match s' with
        | EmptyString => None
        | String b s'' =>
            match unescapeSimple b with
            | Some c =>
                match readString s'' with
                | Some (d, rest) => Some (String c d, rest)
                | None => None
                end
            | None =>
                match s'' with
                | String "0" (String "0" (String h (String l s3))) =>
                    if Ascii.eqb b "u" then
                      match digitValue 16 h, digitValue 16 l, readString s3 with
                      | Some x, Some y, Some (d, rest) =>
                          Some (String (ascii_of_N (Z.to_N (16 * x + y))) d, rest)
                      | _, _, _ => None
                      end
                    else None
                | _ => None
                end
            end
        end
      else
        match readString s' with
        | Some (d, rest) => Some (String a d, rest)
        | None => None
        end
  end.

(** A string literal at the head of the text. *)
Definition readQuoted (s : string) : option (string * string) :=
  match s with
  | String a s' => if (N_of_ascii a =? 34)%N then readString s' else None
  | EmptyString => None
  end.

(** One line of the object: indentation, key, colon, value and the comma
    that is or is not to follow. *)
Definition readProperty (comma : bool) (line : string) : option (string * string) :=
  match line with
  | String " " (String " " (String " " (String " " s))) =>
      match readQuoted s with
      | Some (k, String ":" (String " " s')) =>
          match readQuoted s' with
          | Some (v, rest) =>
              if String.eqb rest (if comma then "," else "") then Some (k, v)
              else None
          | None => None
          end
      | _ => None
      end
  | _ => None
  end.

Fixpoint readProperties (lines : list string) : option Cache.Index :=
  match lines with
  | [] => None
  | [_] => None
  | [line; closing] =>
      if String.eqb closing "}" then
        match readProperty false line with
        | Some e => Some [e]
        | None => None
        end
      else None
  | line :: rest =>
      match readProperty true line, readProperties rest with
      | Some e, Some es => Some (e :: es)
      | _, _ => None
      end
  end.

Definition readIndex (text : string) : option Cache.Index :=
  if String.eqb text "{}" then Some []
  else
    match split (ascii_of_nat 10) text with
    | first :: lines =>
        if String.eqb first "{" then readProperties lines else None
    | [] => None
    end.

(** The lines of the object that [JSON_stringify] writes for the entries. *)
Fixpoint propertyLines (obj : Cache.Index) : list string :=
  match obj with
  | [] => []
  | [e] => [Cache.stringifyProperty e]
  | e :: obj' => (Cache.stringifyProperty e +:+ ",") :: propertyLines obj'
  end.

(** ** The query string of the embed URL *)

Module Url.

Definition hexUpper (n : N) : ascii :=
  ascii_of_N (if (n <? 10)%N then 48 + n else 55 + n)%N.

(** [%XX]. *)
Definition percent (b : N) : string :=
  String "%" (String (hexUpper (b / 16)) (String (hexUpper (b mod 16)) "")).

(** The UTF-8 bytes of a code unit below 256. *)
Definition utf8 (a : ascii) : list N :=
  let n := N_of_ascii a in
  if (n <? 128)%N then [n] else [192 + n / 64; 128 + n mod 64]%N.

(** The bytes that the urlencoded serializer leaves as they are: the
    ASCII alphanumerics and [*], [-], [.], [_]. *)
Definition unreserved (b : N) : bool :=
  ((b =? 42) || (b =? 45) || (b =? 46) || (b =? 95)
   || ((48 <=? b) && (b <=? 57)) || ((65 <=? b) && (b <=? 90))
   || ((97 <=? b) && (b <=? 122)))%N.

(** The urlencoded byte serializer: a space becomes [+]. *)
Definition serializeByte (b : N) : string :=
  if (b =? 32)%N then "+"
  else if unreserved b then String (ascii_of_N b) ""
  else percent b.

Definition serializeChar (a : ascii) : string :=
  foldr (fun b s => serializeByte b +:+ s) "" (utf8 a).

Fixpoint serialize (s : string) : string :=
  match s with
  | EmptyString => ""
  | String a s' => serializeChar a +:+ serialize s'
  end.

(** [name=value]. *)
Definition serializePair (e : string * QueryValue) : string :=
  serialize (fst e) +:+ "=" +:+ serialize (toString (snd e)).

(** [new URLSearchParams(req.query)] as the string concatenation of
    lines 135 and 160 takes it: every value converted to a string, the
    pairs serialized and joined with [&]. *)
Definition URLSearchParams (query : QueryDictionary) : string :=
  join "&" (map serializePair query).

(** Line 160: where the browser is sent. *)
Definition embedUrl (query : QueryDictionary) : string :=
  "https://localhost:8990/embed?" +:+ URLSearchParams query.

(** The characters of a serialized name or value. *)
Definition safeChar (a : ascii) : bool :=
  let b := N_of_ascii a in unreserved b || (b =? 43)%N || (b =? 37)%N.

(** A reader of serialized names and values: it undoes [serialize]. *)
Fixpoint deserialize (s : string) : option string :=
  match s with
  | EmptyString => Some ""
  | String a s' =>
      if Ascii.eqb a "+" then String " " <$> deserialize s'
      else if Ascii.eqb a "%" then
        match s' with
        | String h (String l s'') =>
            match digitValue 16 h, digitValue 16 l with
            | Some x, Some y =>
                let b := 16 * x + y in
                if b <? 128 then
                  String (ascii_of_N (Z.to_N b)) <$> deserialize s''
                else
                  match s'' with
                  | String p (String h' (String l' s3)) =>
                      match digitValue 16 h', digitValue 16 l' with
                      | Some x', Some y' =>
                          if Ascii.eqb p "%" then
                            String (ascii_of_N
                                      (Z.to_N ((b - 192) * 64 + (16 * x' + y' - 128))))
                              <$> deserialize s3
                          else None
                      | _, _ => None
                      end
                  | _ => None
                  end
            | _, _ => None
            end
        | _ => None
        end
      else String a <$> deserialize s'
  end.

End Url.

(** * Properties *)

(** ** Strings *)

Lemma append_cons a s t : String a s +:+ t = String a (s +:+ t).
Proof. reflexivity. Qed.

Lemma append_nil_l s : "" +:+ s = s.
Proof. reflexivity. Qed.

Lemma append_nil_r s : s +:+ "" = s.
Proof. induction s as [|a s IH]; [done|]. by rewrite append_cons, IH. Qed.

Lemma append_assoc s1 s2 s3 : (s1 +:+ s2) +:+ s3 = s1 +:+ (s2 +:+ s3).
Proof. induction s1 as [|a s1 IH]; [done|]. by rewrite !append_cons, IH. Qed.

Lemma occurs_app c a b : occurs c (a +:+ b) = occurs c a || occurs c b.
Proof.
  induction a as [|x a IH]; [done|].
  rewrite append_cons. cbn [occurs]. rewrite IH. by rewrite orb_assoc.
Qed.

Lemma split_free c s : occurs c s = false -> split c s = [s].
Proof.
  induction s as [|a s IH]; [done|]. cbn [occurs split].
  intros [Ha Hs]%orb_false_iff. rewrite Ha, (IH Hs). done.
Qed.

Lemma split_app_free c s rest :
  occurs c s = false -> split c (s +:+ String c rest) = s :: split c rest.
Proof.
  induction s as [|a s IH].
  - intros _. rewrite append_nil_l. cbn [split].
    by rewrite Ascii.eqb_refl.
  - cbn [occurs]. intros [Ha Hs]%orb_false_iff.
    rewrite append_cons. cbn [split]. rewrite Ha, (IH Hs). done.
Qed.

Lemma join_cons2 sep x y l : join sep (x :: y :: l) = x +:+ sep +:+ join sep (y :: l).
Proof. reflexivity. Qed.

(** Splitting at the separator undoes the join of pieces without it. *)
Lemma split_join c l :
  l <> [] -> Forall (fun s => occurs c s = false) l ->
  split c (join (String c "") l) = l.
Proof.
  induction l as [|x [|y l] IH]; intros Hne Hfree; [done| |].
  - apply split_free. by inversion Hfree.
  - rewrite join_cons2. inversion Hfree as [|?? Hx Hrest]; subst.
    change (String c "" +:+ join (String c "") (y :: l))
      with (String c (join (String c "") (y :: l))).
    rewrite (split_app_free _ _ _ Hx). f_equal. by apply IH.
Qed.

Lemma join_nonempty sep x l : x <> "" -> join sep (x :: l) <> "".
Proof.
  destruct x as [|a x]; [done|]. intros _.
  destruct l; [done|]. rewrite join_cons2, append_cons. done.
Qed.

(** The join is injective on lists of non-empty pieces without the separator. *)
Lemma join_inj c l1 l2 :
  Forall (fun s => occurs c s = false /\ s <> "") l1 ->
  Forall (fun s => occurs c s = false /\ s <> "") l2 ->
  join (String c "") l1 = join (String c "") l2 -> l1 = l2.
Proof.
  intros H1 H2 Heq.
  destruct l1 as [|x1 l1], l2 as [|x2 l2]; [done| | |].
  - exfalso. inversion H2 as [|?? [_ Hx] _]; subst.
    by eapply join_nonempty; [exact Hx|symmetry; exact Heq].
  - exfalso. inversion H1 as [|?? [_ Hx] _]; subst.
    by eapply join_nonempty; [exact Hx|exact Heq].
  - rewrite <- (split_join c (x1 :: l1)), <- (split_join c (x2 :: l2)); [|done|..].
    + by rewrite Heq.
    + eapply Forall_impl; [exact H2|]. by intros ? [? _].
    + done.
    + eapply Forall_impl; [exact H1|]. by intros ? [? _].
Qed.

(** A text is split at the first occurrence of the separator. *)
Lemma app_sep_inj c k1 k2 v1 v2 :
  occurs c k1 = false -> occurs c k2 = false ->
  k1 +:+ String c v1 = k2 +:+ String c v2 -> k1 = k2 /\ v1 = v2.
Proof.
  revert k2. induction k1 as [|a k1 IH]; intros [|b k2]; cbn [occurs];
    rewrite ?append_cons, ?append_nil_l; intros H1 H2 Heq.
  - by injection Heq.
  - injection Heq as -> _. by rewrite Ascii.eqb_refl in H2.
  - injection Heq as -> _. by rewrite Ascii.eqb_refl in H1.
  - apply orb_false_iff in H1 as [_ H1]. apply orb_false_iff in H2 as [_ H2].
    injection Heq as -> Heq. destruct (IH _ H1 H2 Heq) as [-> ->]. done.
Qed.

(** ** The sort *)

Section SortFacts.

Variable cmp : string -> string -> Z.

Lemma sortInsert_perm x l : sortInsert cmp x l ≡ₚ x :: l.
Proof.
  induction l as [|y l IH]; cbn [sortInsert]; [done|].
  destruct (cmp (fst x) (fst y) <=? 0); [done|].
  rewrite IH. apply Permutation_swap.
Qed.

Lemma sort_perm l : sort cmp l ≡ₚ l.
Proof.
  induction l as [|x l IH]; cbn [sort]; [done|].
  by rewrite sortInsert_perm, IH.
Qed.

Hypothesis consistent : Consistent cmp.

Lemma keyLe_total e1 e2 : keyLe cmp e1 e2 \/ keyLe cmp e2 e1.
Proof.
  unfold keyLe. destruct (Z_le_gt_dec (cmp (fst e1) (fst e2)) 0) as [|Hgt]; [by left|].
  right. apply Z.gt_lt, (cmp_flip _ consistent) in Hgt. lia.
Qed.

Lemma keyLe_trans e1 e2 e3 : keyLe cmp e1 e2 -> keyLe cmp e2 e3 -> keyLe cmp e1 e3.
Proof. unfold keyLe. apply (cmp_trans _ consistent). Qed.

Lemma keyLe_tie e1 e2 :
  keyLe cmp e1 e2 -> keyLe cmp e2 e1 -> cmp (fst e1) (fst e2) = 0.
Proof.
  unfold keyLe. intros H1 H2.
  destruct (Z.eq_dec (cmp (fst e1) (fst e2)) 0) as [|Hne]; [done|].
  assert (cmp (fst e1) (fst e2) < 0) as Hlt by lia.
  apply (cmp_flip _ consistent) in Hlt. lia.
Qed.

Lemma sortInsert_sorted x l :
  StronglySorted (keyLe cmp) l -> StronglySorted (keyLe cmp) (sortInsert cmp x l).
Proof.
  induction 1 as [|y l Hl IH Hy]; cbn [sortInsert].
  - repeat constructor.
  - destruct (cmp (fst x) (fst y) <=? 0) eqn:Hxy.
    + apply Z.leb_le in Hxy. constructor; [by constructor|].
      constructor; [exact Hxy|].
      eapply Forall_impl; [exact Hy|]. intros z Hz.
      by apply (keyLe_trans x y z).
    + apply Z.leb_gt in Hxy. constructor; [exact IH|].
      rewrite sortInsert_perm. constructor; [|exact Hy].
      destruct (keyLe_total y x) as [|Hle]; [done|]. unfold keyLe in Hle. lia.
Qed.

Lemma sort_sorted l : StronglySorted (keyLe cmp) (sort cmp l).
Proof.
  induction l as [|x l IH]; cbn [sort]; [constructor|].
  by apply sortInsert_sorted.
Qed.

Lemma elem_of_keys (q : QueryDictionary) e : e ∈ q -> fst e ∈ map fst q.
Proof. rewrite !list_elem_of_In. apply in_map. Qed.

(** Two entries of a mapping with the same key are the same entry. *)
Lemma entry_unique (q : QueryDictionary) e1 e2 :
  NoDup (map fst q) -> e1 ∈ q -> e2 ∈ q -> fst e1 = fst e2 -> e1 = e2.
Proof.
  induction q as [|e q IH]; [by inversion 2|].
  cbn [map]. intros [Hnotin Hnd]%NoDup_cons.
  intros [->|H1]%elem_of_cons [->|H2]%elem_of_cons Hk; [done| | |by apply IH].
  - exfalso. apply Hnotin. rewrite Hk. by apply elem_of_keys.
  - exfalso. apply Hnotin. rewrite <- Hk. by apply elem_of_keys.
Qed.

(** The sorted entries do not depend on the order of enumeration. *)
Lemma sort_order_independent q q' :
  NoDup (map fst q) -> separatesKeys cmp q -> q' ≡ₚ q ->
  sort cmp q' = sort cmp q.
Proof.
  intros Hnd Hsep Hperm.
  apply (StronglySorted_unique_strong (keyLe cmp)); [|apply sort_sorted..|].
  - intros e1 e2 H1 H2 H12 H21.
    rewrite sort_perm, Hperm in H1. rewrite sort_perm in H2.
    apply (entry_unique q); [done..|].
    apply Hsep; [by apply elem_of_keys..|].
    by apply keyLe_tie.
  - by rewrite !sort_perm.
Qed.

End SortFacts.

(** ** The cache key *)

Lemma join_concat sep l : join sep l = String.concat sep l.
Proof.
  induction l as [|x [|y l] IH]; [done..|].
  rewrite join_cons2, IH. reflexivity.
Qed.

Lemma formatEntry_spec e : formatEntry e = formatPairSpec e.
Proof.
  destruct e as [k [s|l]]; unfold formatEntry, formatPairSpec; cbn [fst snd];
    by rewrite ?join_concat.
Qed.

(** The cache key in the words of the specification, whatever the
    comparator: the formatted pairs of the sorted entries, joined. *)
Lemma slug_spec cmp q :
  toScreenshotCacheSlug cmp q
  = String.concat ";" (map formatPairSpec (sort cmp q)).
Proof.
  unfold toScreenshotCacheSlug.
  by rewrite join_concat, (map_ext _ _ formatEntry_spec).
Qed.

Section Stability.

Variable cmp : string -> string -> Z.
Hypothesis consistent : Consistent cmp.

Lemma cmp_tie_sym a b : cmp a b = 0 -> cmp b a = 0.
Proof.
  intros Hab. pose proof (cmp_flip _ consistent a b).
  pose proof (cmp_flip _ consistent b a). lia.
Qed.

(** The sort is stable: it does not reorder entries whose keys tie. *)
Lemma sortInsert_filter k x l :
  filter (fun e => cmp k (fst e) = 0)
    (sortInsert cmp x l : list (string * QueryValue))
  = filter (fun e => cmp k (fst e) = 0) (x :: l).
Proof.
  induction l as [|y l IH]; cbn [sortInsert]; [done|].
  destruct (cmp (fst x) (fst y) <=? 0) eqn:Hxy; [done|].
  apply Z.leb_gt in Hxy.
  rewrite filter_cons, IH, !filter_cons.
  destruct (decide (cmp k (fst y) = 0)) as [Hy|Hy],
    (decide (cmp k (fst x) = 0)) as [Hx|Hx]; try done.
  exfalso. apply cmp_tie_sym in Hx.
  pose proof (cmp_trans _ consistent (fst x) k (fst y)). lia.
Qed.

Lemma sort_filter k l :
  filter (fun e => cmp k (fst e) = 0) (sort cmp l : list (string * QueryValue))
  = filter (fun e => cmp k (fst e) = 0) l.
Proof.
  induction l as [|x l IH]; cbn [sort]; [done|].
  by rewrite sortInsert_filter, !filter_cons, IH.
Qed.

Lemma filter_all {A} (P : A -> Prop) `{!forall x, Decision (P x)} (l : list A) :
  Forall P l -> filter P l = l.
Proof.
  induction 1 as [|x l Hx _ IH]; [done|].
  by rewrite filter_cons, decide_True, IH.
Qed.

(** Entries whose keys all tie are left as they are. *)
Lemma sort_all_tied k l :
  Forall (fun e => cmp k (fst e) = 0) l -> sort cmp l = l.
Proof.
  intros Hl.
  transitivity (filter (fun e => cmp k (fst e) = 0)
                  (sort cmp l : list (string * QueryValue))).
  - symmetry. apply filter_all. by rewrite sort_perm.
  - etransitivity; [apply sort_filter|]. by apply filter_all.
Qed.

End Stability.

Lemma codeUnitCompare_le a b : codeUnitCompare a b <= 0 <-> String.le a b.
Proof.
  unfold codeUnitCompare, String.le, String.leb.
  destruct (String.compare a b); cbn; split; (lia || done).
Qed.

Lemma codeUnitCompare_consistent : Consistent codeUnitCompare.
Proof.
  split.
  - intros a b. unfold codeUnitCompare.
    rewrite (String.compare_antisym b a).
    destruct (String.compare a b); cbn; lia.
  - intros a b c. rewrite !codeUnitCompare_le. apply transitivity.
Qed.

Lemma codeUnitCompare_separates q : separatesKeys codeUnitCompare q.
Proof.
  intros a b _ _. unfold codeUnitCompare.
  destruct (String.compare a b) eqn:E; [|lia..].
  intros _. by apply String.compare_eq_iff.
Qed.

(** A consistent comparator stays one when the keys are mapped first. *)
Lemma Consistent_on cmp (f : string -> string) :
  Consistent cmp -> Consistent (fun a b => cmp (f a) (f b)).
Proof.
  intros [Hflip Htrans]. split.
  - intros a b. apply Hflip.
  - intros a b c. apply Htrans.
Qed.

Lemma hyphenBlindCompare_consistent : Consistent hyphenBlindCompare.
Proof. apply (Consistent_on codeUnitCompare), codeUnitCompare_consistent. Qed.






Lemma formatEntry_sep e : formatEntry e = fst e +:+ String ":" (toString (snd e)).
Proof. destruct e as [k [s|l]]; reflexivity. Qed.

Lemma formatEntry_nonempty e : formatEntry e <> "".
Proof.
  rewrite formatEntry_sep. destruct (fst e); by rewrite ?append_cons, ?append_nil_l.
Qed.

(** What follows the first piece of a join. *)
Lemma join_head sep x l :
  join sep (x :: l)
  = x +:+ match l with [] => "" | _ :: _ => sep +:+ join sep l end.
Proof.
  destruct l; [|reflexivity]. cbn [join]. by rewrite append_nil_r.
Qed.

(** A text without the separator, followed by nothing or by the
    separator, is read off unambiguously. *)
Lemma app_tail_inj c v1 v2 t1 t2 :
  occurs c v1 = false -> occurs c v2 = false ->
  (t1 = "" \/ exists r, t1 = String c r) ->
  (t2 = "" \/ exists r, t2 = String c r) ->
  v1 +:+ t1 = v2 +:+ t2 -> v1 = v2 /\ t1 = t2.
Proof.
  revert v2. induction v1 as [|a v1 IH]; intros [|b v2]; cbn [occurs];
    rewrite ?append_cons, ?append_nil_l; intros H1 H2 Ht1 Ht2 Heq.
  - done.
  - exfalso. destruct Ht1 as [->|[r ->]]; [done|].
    injection Heq as <- _. by rewrite Ascii.eqb_refl in H2.
  - exfalso. destruct Ht2 as [->|[r ->]]; [done|].
    injection Heq as -> _. by rewrite Ascii.eqb_refl in H1.
  - apply orb_false_iff in H1 as [_ H1]. apply orb_false_iff in H2 as [_ H2].
    injection Heq as -> Heq. destruct (IH _ H1 H2 Ht1 Ht2 Heq) as [-> ->]. done.
Qed.

(** With no colon in the keys and no semicolon in the value texts, the
    joined pairs determine the keys and the value texts. *)
Lemma formatted_join_inj q1 q2 :
  separatorFree q1 -> separatorFree q2 ->
  join ";" (map formatEntry q1) = join ";" (map formatEntry q2) ->
  map renderPair q1 = map renderPair q2.
Proof.
  intros H1. revert q2.
  induction H1 as [|e1 q1 (Hk1 & Hv1) Hq1 IH]; intros q2 H2 Heq.
  - destruct q2 as [|e2 q2]; [done|]. exfalso. cbn [map] in Heq.
    by eapply join_nonempty; [apply (formatEntry_nonempty e2)|symmetry; exact Heq].
  - destruct H2 as [|e2 q2 (Hk2 & Hv2) H2].
    { exfalso. cbn [map] in Heq.
      by eapply join_nonempty; [apply (formatEntry_nonempty e1)|exact Heq]. }
    cbn [map] in *. rewrite !join_head, !formatEntry_sep, !append_assoc in Heq.
    rewrite !append_cons in Heq.
    apply app_sep_inj in Heq as [Hk Heq]; [|done..].
    rewrite !append_nil_l in Heq.
    apply (app_tail_inj ";"%char) in Heq as [Hv Htail]; [|done|done|..].
    + f_equal; [unfold renderPair; by rewrite Hk, Hv|].
      apply IH; [done|].
      destruct q1 as [|e1' q1], q2 as [|e2' q2]; cbn [map] in *; [done|done..|].
      by injection Htail.
    + destruct q1; [by left|right]. cbn [map]. by eexists.
    + destruct q2; [by left|right]. cbn [map]. by eexists.
Qed.

Lemma keys_renderPair q : (map renderPair q).*1 = map fst q.
Proof. induction q as [|e q IH]; [done|]. cbn. by rewrite <- IH. Qed.

(** The value texts of a mapping, as a finite map. *)
Lemma valueText_lookup q key :
  valueText q key = (list_to_map (map renderPair q) : gmap string string) !! key.
Proof.
  unfold valueText. induction q as [|[k v] q IH]; [done|].
  cbn [get map renderPair list_to_map foldr fst snd uncurry].
  rewrite lookup_insert. unfold decide, decide_rel.
  destruct (String.eq_dec k key); [done|]. exact IH.
Qed.

(** With no colon inside the keys and no semicolon inside the value
    texts, equal cache keys come from mappings with the same keys and the
    same value texts. *)
Lemma slug_inj cmp q1 q2 :
  NoDup (map fst q1) -> separatorFree q1 -> separatorFree q2 ->
  toScreenshotCacheSlug cmp q1 = toScreenshotCacheSlug cmp q2 ->
  forall key, valueText q1 key = valueText q2 key.
Proof.
  intros Hnd H1 H2 Heq key. unfold toScreenshotCacheSlug in Heq.
  assert (separatorFree (sort cmp q1)) as H1'.
  { unfold separatorFree. by rewrite sort_perm. }
  assert (separatorFree (sort cmp q2)) as H2'.
  { unfold separatorFree. by rewrite sort_perm. }
  apply formatted_join_inj in Heq; [|done..].
  rewrite !valueText_lookup. f_equal.
  apply list_to_map_proper; [by rewrite keys_renderPair|].
  rewrite <- (sort_perm cmp q1), <- (sort_perm cmp q2) at 1.
  by rewrite Heq.
Qed.

(** C2, as amended: two query mappings whose keys hold no [:] and whose
    value texts hold no [;] get different cache keys as soon as some
    parameter has different value texts in them, a missing parameter
    differing from every text. *)
Theorem slug_sensitive_without_separators
    (cmp : string -> string -> Z) (q1 q2 : QueryDictionary) :
  NoDup (map fst q1) -> separatorFree q1 -> separatorFree q2 ->
  (exists key, valueText q1 key <> valueText q2 key) ->
  toScreenshotCacheSlug cmp q1 <> toScreenshotCacheSlug cmp q2.
Proof.
  intros Hnd H1 H2 [key Hdiff] Heq. apply Hdiff.
  by apply (slug_inj cmp q1 q2).
Qed.

Lemma slug_sensitive_without_separators_witness :
  toScreenshotCacheSlug codeUnitCompare [("a;b", QStr "x:y,z")]
  <> toScreenshotCacheSlug codeUnitCompare [("a;b", QStr "x:y"); ("c", QArr [])].
Proof.
  apply (slug_sensitive_without_separators codeUnitCompare
           [("a;b", QStr "x:y,z")] [("a;b", QStr "x:y"); ("c", QArr [])]).
  - apply (bool_decide_unpack (NoDup _)). vm_compute. exact I.
  - repeat constructor.
  - repeat constructor.
  - exists "a;b". discriminate.
Defined.

(** C2 as stated fails: the key format has no escaping, so a value that
    holds [;] and [:] reads as further pairs. *)
Lemma slug_collision_with_separators :
  let q1 := [("a", QStr "1;b:2"); ("b", QStr "3")] in
  let q2 := [("a", QStr "1"); ("b", QStr "2;b:3")] in
  valueText q1 "a" <> valueText q2 "a" /\
  valueText q1 "b" <> valueText q2 "b" /\
  toScreenshotCacheSlug codeUnitCompare q1 = "a:1;b:2;b:3" /\
  forall cmp : string -> string -> Z, cmp "a" "b" <= 0 ->
    toScreenshotCacheSlug cmp q1 = toScreenshotCacheSlug cmp q2.
Proof.
  cbv zeta. split; [discriminate|]. split; [discriminate|].
  split; [reflexivity|].
  intros cmp Hab. unfold toScreenshotCacheSlug. cbn [sort sortInsert fst].
  apply Z.leb_le in Hab. rewrite Hab. reflexivity.
Qed.

(** A colon inside a key collides as well: the key then reads as a
    shorter key with a longer value. *)
Lemma slug_collision_with_colon_in_key (cmp : string -> string -> Z) :
  valueText [("a:b", QStr "c")] "a" <> valueText [("a", QStr "b:c")] "a" /\
  toScreenshotCacheSlug cmp [("a:b", QStr "c")]
  = toScreenshotCacheSlug cmp [("a", QStr "b:c")].
Proof. split; [discriminate|reflexivity]. Qed.

(** ** A sequence and its comma-joined string *)

(** The sort moves the values along with their keys. *)
Lemma sortInsert_related cmp (R : relation (string * QueryValue)) x x' l l' :
  (forall e e', R e e' -> fst e = fst e') ->
  R x x' -> Forall2 R l l' ->
  Forall2 R (sortInsert cmp x l) (sortInsert cmp x' l').
Proof.
  intros Hkey Hx Hl. induction Hl as [|y y' l l' Hy Hl IH]; cbn [sortInsert].
  - by repeat constructor.
  - rewrite <- (Hkey _ _ Hx), <- (Hkey _ _ Hy).
    destruct (cmp (fst x) (fst y) <=? 0); by repeat constructor.
Qed.

Lemma sort_related cmp (R : relation (string * QueryValue)) l l' :
  (forall e e', R e e' -> fst e = fst e') ->
  Forall2 R l l' -> Forall2 R (sort cmp l) (sort cmp l').
Proof.
  intros Hkey. induction 1; cbn [sort]; [constructor|].
  by apply sortInsert_related.
Qed.

Lemma get_middle (pre post : QueryDictionary) key v :
  key ∉ map fst pre -> get (pre ++ (key, v) :: post) key = Some v.
Proof.
  induction pre as [|[k w] pre IH]; cbn [app get map fst].
  - intros _. by rewrite decide_True.
  - intros [Hne Hnotin]%not_elem_of_cons. rewrite decide_False; [by apply IH|done].
Qed.

(** C10, as amended: a sequence value and its comma-joined string give
    the same cache key; for [additionalTimezones] they give the same
    display rows when the sequence is not empty and none of its strings
    holds a comma. *)
Theorem sequence_and_joined_string_alias
    (cmp : string -> string -> Z) (pre post : QueryDictionary)
    (key : string) (vs : list string) :
  toScreenshotCacheSlug cmp (pre ++ (key, QStr (join "," vs)) :: post)
  = toScreenshotCacheSlug cmp (pre ++ (key, QArr vs) :: post)
  /\ ("additionalTimezones" ∉ map fst pre -> vs <> [] ->
      Forall (fun s => occurs "," s = false) vs ->
      Embed.keyFormats
        (pre ++ ("additionalTimezones", QStr (join "," vs)) :: post)
      = Embed.keyFormats (pre ++ ("additionalTimezones", QArr vs) :: post)).
Proof.
  split.
  - unfold toScreenshotCacheSlug. f_equal.
    set (R := fun e e' : string * QueryValue =>
                fst e = fst e' /\ formatEntry e = formatEntry e').
    assert (Forall2 R (sort cmp (pre ++ (key, QStr (join "," vs)) :: post))
              (sort cmp (pre ++ (key, QArr vs) :: post))) as Hrel.
    { apply sort_related; [by intros ?? [? _]|].
      apply Forall2_app; [by apply Forall_Forall2_diag, Forall_true|].
      constructor; [done|]. by apply Forall_Forall2_diag, Forall_true. }
    induction Hrel as [|???? [_ Hfmt] _ IH]; cbn [map]; [done|].
    by rewrite Hfmt, IH.
  - intros Hpre Hne Hfree. unfold Embed.keyFormats, Embed.additionalZones.
    rewrite !get_middle by done. by rewrite split_join.
Qed.

Lemma sequence_and_joined_string_alias_witness :
  Embed.keyFormats
    [("tz", QStr "Etc/UTC");
     ("additionalTimezones", QStr (join "," ["Asia/Tokyo"; "Europe/Paris"]))]
  = Embed.keyFormats
      [("tz", QStr "Etc/UTC");
       ("additionalTimezones", QArr ["Asia/Tokyo"; "Europe/Paris"])].
Proof.
  apply (sequence_and_joined_string_alias codeUnitCompare
           [("tz", QStr "Etc/UTC")] [] "additionalTimezones"
           ["Asia/Tokyo"; "Europe/Paris"]).
  - apply (bool_decide_unpack (_ ∉ _)). vm_compute. exact I.
  - discriminate.
  - repeat constructor.
Defined.

(** C10 as stated fails: a string of the sequence that holds a comma is
    one row as a sequence element and two rows after the join. *)
Lemma sequence_with_comma_changes_rows :
  let vs := ["Asia/Tokyo,Europe/Paris"; "Etc/GMT"] in
  Embed.keyFormats [("additionalTimezones", QArr vs)]
  <> Embed.keyFormats [("additionalTimezones", QStr (join "," vs))]
  /\ map Embed.name
       (Embed.keyFormats [("additionalTimezones", QArr vs)])
     = map Embed.name Embed.builtinFormats
       ++ ["Asia/Tokyo,Europe/Paris"; "Etc/GMT"]
  /\ map Embed.name
       (Embed.keyFormats [("additionalTimezones", QStr (join "," vs))])
     = map Embed.name Embed.builtinFormats
       ++ ["Asia/Tokyo"; "Europe/Paris"; "Etc/GMT"].
Proof. cbv zeta. split; [discriminate|]. split; reflexivity. Qed.

(** ** The embed fragment *)

Lemma mapResult_Ok {A B} (f : A -> result B) l ys :
  mapResult f l = Ok ys -> Forall2 (fun x y => f x = Ok y) l ys.
Proof.
  revert ys. induction l as [|x l IH]; intros ys; cbn [mapResult].
  - intros [= <-]. constructor.
  - unfold mbind, result_bind. destruct (f x) as [y|] eqn:Hx; [|done].
    destruct (mapResult f l) as [ys'|]; [|done].
    intros [= <-]. constructor; [done|]. by apply IH.
Qed.

Lemma mapResult_Forall2 {A B} (f : A -> result B) l ys :
  Forall2 (fun x y => f x = Ok y) l ys -> mapResult f l = Ok ys.
Proof.
  induction 1 as [|x y l ys Hx _ IH]; cbn [mapResult]; [done|].
  unfold mbind, result_bind. by rewrite Hx, IH.
Qed.

Lemma mapResult_succeeds {A B} (f : A -> result B) l :
  Forall (fun x => succeeds (f x)) l ->
  exists ys, mapResult f l = Ok ys /\ length ys = length l.
Proof.
  induction 1 as [|x l Hx _ (ys & Hys & Hlen)]; cbn [mapResult].
  - by exists [].
  - unfold mbind, result_bind. destruct (f x) as [y|]; [|done].
    rewrite Hys. exists (y :: ys). cbn [length]. by rewrite Hlen.
Qed.

Lemma toIntegerWithTruncation_cases n :
  (exists i, Embed.toIntegerWithTruncation n = Ok i)
  \/ Embed.toIntegerWithTruncation n = Throw RangeError.
Proof. destruct n; cbn; eauto. Qed.

Lemma toPositiveIntegerWithTruncation_cases n :
  (exists i, Embed.toPositiveIntegerWithTruncation n = Ok i)
  \/ Embed.toPositiveIntegerWithTruncation n = Throw RangeError.
Proof.
  unfold Embed.toPositiveIntegerWithTruncation, mbind, result_bind.
  destruct (toIntegerWithTruncation_cases n) as [[i ->]| ->]; [|by right].
  destruct (i <=? 0); eauto.
Qed.

(** A field that is [NaN] makes [from] throw, whatever the other fields. *)
Lemma prepareFields_NaN bag :
  Embed.bag_year bag = NaN \/ Embed.bag_month bag = NaN
  \/ Embed.bag_day bag = NaN \/ Embed.bag_hour bag = NaN
  \/ Embed.bag_minute bag = NaN ->
  Embed.prepareFields bag = Throw RangeError.
Proof.
  intros H. unfold Embed.prepareFields, mbind, result_bind.
  destruct (toPositiveIntegerWithTruncation_cases (Embed.bag_day bag))
    as [[d Hd]|Hd]; rewrite Hd; [|done].
  destruct (toIntegerWithTruncation_cases (Embed.bag_hour bag))
    as [[h Hh]|Hh]; rewrite Hh; [|done].
  destruct (toIntegerWithTruncation_cases (Embed.bag_minute bag))
    as [[mi Hmi]|Hmi]; rewrite Hmi; [|done].
  destruct (toPositiveIntegerWithTruncation_cases (Embed.bag_month bag))
    as [[mo Hmo]|Hmo]; rewrite Hmo; [|done].
  destruct (toIntegerWithTruncation_cases (Embed.bag_year bag))
    as [[y Hy]|Hy]; rewrite Hy; [|done].
  exfalso. unfold Embed.toPositiveIntegerWithTruncation, mbind, result_bind in *.
  destruct H as [H|[H|[H|[H|H]]]]; rewrite H in *; done.
Qed.



Lemma elem_of_map_2 {A B} (f : A -> B) (l : list A) x : x ∈ l -> f x ∈ map f l.
Proof. rewrite !list_elem_of_In. apply in_map. Qed.

Section EmbedFacts.

Context {T : Temporal}.

Lemma formatRows_Ok q target rows :
  Embed.formatRows q target = Ok rows ->
  Forall2 (fun f row => Embed.formatRow q target f = Ok row)
    (Embed.keyFormats q) rows.
Proof. apply mapResult_Ok. Qed.

Lemma looseEq_spec s v : looseEq s v = true <-> s = toString v.
Proof. unfold looseEq. apply String.eqb_eq. Qed.

Lemma tableRows_Ok q target rows :
  Embed.tableRows q target = Ok rows ->
  exists main frows,
    Embed.mainRow q target = Ok main /\ Embed.formatRows q target = Ok frows /\
    rows = (if Embed.prependsMainRow q then [main] else []) ++ frows.
Proof.
  unfold Embed.tableRows, mbind, result_bind.
  destruct (Embed.mainRow q target) as [main|]; [|done].
  destruct (Embed.formatRows q target) as [frows|]; [|done].
  intros [= <-]. by exists main, frows.
Qed.

(** The fragment, once the main zoned date-time, the prepended row and
    the rows are there. *)
Lemma fragment_document q clock target main rows :
  Embed.targetDate q = Ok target ->
  Embed.mainRow q target = Ok main ->
  Embed.formatRows q target = Ok rows ->
  Embed.fragment q clock = Ok (documentText (serverTime clock) main rows).
Proof.
  intros Htarget Hmain Hrows.
  unfold Embed.fragment, mbind at 1, result_bind at 1. rewrite Htarget.
  unfold Embed.styleBlock, Embed.styles. cbn [mapResult].
  unfold mbind, result_bind. rewrite Hmain, Hrows.
  unfold documentText, blockText, serverTime. cbn [map].
  rewrite (join_concat "" rows). reflexivity.
Qed.

(** A fragment that is produced has its main zoned date-time, its
    prepended row and its rows. *)
Lemma fragment_Ok q clock out :
  Embed.fragment q clock = Ok out ->
  exists target main rows,
    Embed.targetDate q = Ok target /\ Embed.mainRow q target = Ok main
    /\ Embed.formatRows q target = Ok rows
    /\ out = documentText (serverTime clock) main rows.
Proof.
  intros Hout.
  destruct (Embed.targetDate q) as [target|] eqn:Htarget;
    [|by unfold Embed.fragment, mbind, result_bind in Hout; rewrite Htarget in Hout].
  destruct (Embed.mainRow q target) as [main|] eqn:Hmain.
  - destruct (Embed.formatRows q target) as [rows|] eqn:Hrows.
    + rewrite (fragment_document q clock target main rows) in Hout by done.
      injection Hout as <-. by exists target, main, rows.
    + exfalso. revert Hout.
      unfold Embed.fragment, mbind at 1, result_bind at 1. rewrite Htarget.
      unfold Embed.styleBlock, Embed.styles. cbn [mapResult].
      unfold mbind, result_bind. by rewrite Hmain, Hrows.
  - exfalso. revert Hout.
    unfold Embed.fragment, mbind at 1, result_bind at 1. rewrite Htarget.
    unfold Embed.styleBlock, Embed.styles. cbn [mapResult].
    unfold mbind, result_bind. by rewrite Hmain.
Qed.


(** The main zone is the zone of some entry of [keyFormats]. *)
Lemma prependsMainRow_false q :
  Embed.prependsMainRow q = false <->
  toString (Embed.mainTimezone q) ∈ map Embed.timezone (Embed.keyFormats q).
Proof.
  unfold Embed.prependsMainRow. rewrite negb_false_iff, existsb_exists.
  rewrite list_elem_of_In, in_map_iff. split.
  - intros (f & Hf & Heq%looseEq_spec). by exists f.
  - intros (f & Heq & Hf). exists f. split; [done|]. by apply looseEq_spec.
Qed.

Lemma keyFormats_zones q :
  map Embed.timezone (Embed.keyFormats q)
  = map Embed.timezone Embed.builtinFormats ++ Embed.additionalZones q.
Proof.
  unfold Embed.keyFormats. rewrite map_app, map_map. cbn [Embed.additionalFormat
    Embed.timezone]. by rewrite map_id.
Qed.

(** C6, as amended: the fragment builder prepends the row of the main
    zone if and only if the main zone is the zone of no display row,
    neither of the five built-in ones nor of an additional one.  The
    builder returns a text exactly when the main zoned date-time and the
    rows of [keyFormats] are produced, and the row of the main zone too
    if it is called for; the text is then the document of these rows,
    with nothing prepended when some row has the main zone, and with the
    row of the main zone, showing the main zoned date-time in the locale
    of the request, prepended when none has. *)
Theorem main_row_prepended_iff_no_row_has_main_zone
    (q : QueryDictionary) (clock : string -> Instant) (out : string) :
  Embed.fragment q clock = Ok out <->
  exists target rows,
    Embed.targetDate q = Ok target /\
    Forall2 (fun f row => Embed.formatRow q target f = Ok row)
      (Embed.keyFormats q) rows /\
    (toString (Embed.mainTimezone q) ∈ map Embed.timezone Embed.builtinFormats
     \/ toString (Embed.mainTimezone q) ∈ Embed.additionalZones q ->
     out = documentText (serverTime clock) "" rows) /\
    ((toString (Embed.mainTimezone q) ∉ map Embed.timezone Embed.builtinFormats)
     /\ (toString (Embed.mainTimezone q) ∉ Embed.additionalZones q) ->
     exists time,
       zonedToLocaleString target (Embed.requestLocale q) Embed.formatOptions
       = Ok time
       /\ out = documentText (serverTime clock)
                  (Embed.tr (toString (Embed.mainTimezone q)) time) rows).
Proof.
  split.
  - intros (target & main & rows & Htarget & Hmain & Hrows & ->)%fragment_Ok.
    exists target, rows. split; [exact Htarget|].
    split; [by apply formatRows_Ok|].
    unfold Embed.mainRow, mbind, result_bind in Hmain.
    rewrite <- elem_of_app, <- not_elem_of_app, <- keyFormats_zones,
      <- prependsMainRow_false.
    destruct (Embed.prependsMainRow q); split; try done.
    + intros _. destruct (zonedToLocaleString target _ _) as [time|]; [|done].
      injection Hmain as <-. by exists time.
    + intros _. by injection Hmain as <-.
  - intros (target & rows & Htarget & Hrows & Hsome & Hnone).
    apply mapResult_Forall2 in Hrows.
    rewrite <- elem_of_app, <- keyFormats_zones, <- prependsMainRow_false in Hsome.
    rewrite <- not_elem_of_app, <- keyFormats_zones, <- prependsMainRow_false
      in Hnone.
    destruct (Embed.prependsMainRow q) eqn:Hprepends.
    + destruct Hnone as (time & Htime & ->); [done|].
      apply (fragment_document q clock target); [done| |done].
      unfold Embed.mainRow, mbind, result_bind. by rewrite Hprepends, Htime.
    + rewrite Hsome by done.
      apply (fragment_document q clock target); [done| |done].
      unfold Embed.mainRow. by rewrite Hprepends.
Qed.


End EmbedFacts.


Lemma main_row_prepended_iff_no_row_has_main_zone_witness :
  let q := [("tz", QStr "Asia/Tokyo"); ("locale", QStr "ja-JP")] in
  let out :=
    documentText (fun _ => "now") (Embed.tr "Asia/Tokyo" "Asia/Tokyo")
      (map (fun f => Embed.tr (Embed.name f) (Embed.timezone f))
         Embed.builtinFormats) in
  exists target rows,
    Embed.targetDate (T := sampleTemporal) q = Ok target /\
    Forall2 (fun f row => Embed.formatRow (T := sampleTemporal) q target f = Ok row)
      (Embed.keyFormats q) rows /\
    (toString (Embed.mainTimezone q) ∈ map Embed.timezone Embed.builtinFormats
     \/ toString (Embed.mainTimezone q) ∈ Embed.additionalZones q ->
     out = documentText (serverTime (T := sampleTemporal) (fun _ => 0)) "" rows) /\
    ((toString (Embed.mainTimezone q) ∉ map Embed.timezone Embed.builtinFormats)
     /\ (toString (Embed.mainTimezone q) ∉ Embed.additionalZones q) ->
     exists time,
       zonedToLocaleString (Temporal := sampleTemporal) target (Embed.requestLocale q) Embed.formatOptions
       = Ok time
       /\ out = documentText (serverTime (T := sampleTemporal) (fun _ => 0))
                  (Embed.tr (toString (Embed.mainTimezone q)) time) rows).
Proof.
  cbv zeta.
  apply (main_row_prepended_iff_no_row_has_main_zone (T := sampleTemporal)
           [("tz", QStr "Asia/Tokyo"); ("locale", QStr "ja-JP")] (fun _ => 0)).
  vm_compute. reflexivity.
Defined.

(** C6 as stated fails: a main zone outside the built-in rows that is
    also an additional zone gets no prepended row; the fragment shows the
    five built-in rows and the additional one, the latter with the main
    zoned date-time. *)
Lemma main_zone_among_additional_not_prepended :
  let q := [("tz", QStr "Asia/Tokyo");
            ("additionalTimezones", QStr "Asia/Tokyo")] in
  let rows :=
    map (fun f => Embed.tr (Embed.name f) (Embed.timezone f)) Embed.builtinFormats
    ++ [Embed.tr "Asia/Tokyo" "Asia/Tokyo"] in
  (toString (Embed.mainTimezone q) ∉ map Embed.timezone Embed.builtinFormats) /\
  Embed.fragment (T := sampleTemporal) q (fun _ => 0)
  = Ok (documentText (fun _ => "now") "" rows) /\
  Embed.fragment (T := sampleTemporal) q (fun _ => 0)
  <> Ok (documentText (fun _ => "now") (Embed.tr "Asia/Tokyo" "Asia/Tokyo") rows).
Proof.
  cbv zeta. split; [|split].
  - apply (bool_decide_unpack (_ ∉ _)). vm_compute. exact I.
  - vm_compute. reflexivity.
  - vm_compute. discriminate.
Qed.


(** ** The screenshot cache *)

Lemma lookup_has idx key path : Cache.lookup idx key = Some path -> Cache.has idx key = true.
Proof.
  induction idx as [|[k v] idx IH]; cbn [Cache.lookup Cache.has existsb fst]; [done|].
  destruct (String.eqb k key); [done|]. exact IH.
Qed.

Lemma lookup_assign idx key value : Cache.lookup (Cache.assign idx key value) key = Some value.
Proof.
  induction idx as [|[k v] idx IH]; cbn [Cache.assign Cache.lookup].
  - by rewrite String.eqb_refl.
  - destruct (String.eqb k key) eqn:Hk; cbn [Cache.lookup]; by rewrite Hk.
Qed.

Lemma png_is_not_cache_json uuid : uuid +:+ ".png" <> "cache.json".
Proof.
  unfold not.
  do 10 (destruct uuid as [|? uuid]; [discriminate|]; rewrite append_cons;
         intros [= -> Heq]; revert Heq).
  destruct uuid; discriminate.
Qed.

Lemma freshPath_is_not_cacheJson dirname uuid :
  Cache.freshPath dirname uuid <> Cache.cacheJson dirname.
Proof.
  unfold Cache.freshPath, Cache.cacheJson, Cache.pathJoin. cbn [join].
  intros Heq. do 4 apply (inj (String.app _)) in Heq.
  by apply png_is_not_cache_json in Heq.
Qed.

Lemma has_lookup idx key :
  Cache.has idx key
  = match Cache.lookup idx key with Some _ => true | None => false end.
Proof.
  induction idx as [|[k v] idx IH]; cbn [Cache.lookup Cache.has existsb fst]; [done|].
  destruct (String.eqb k key); [done|]. exact IH.
Qed.

(** Lines 149-156, case by case: a miss on a key that is not there, a hit
    on a file, the invalidation of an entry whose path is a dangling
    link, and the failure of [rm] on a path that names nothing. *)
Lemma lookupCache_cases slug st :
  Cache.lookupCache slug st
  = match Cache.lookup (Cache.screenshotCache st) slug with
    | None => (Ok None, st)
    | Some path =>
        match Cache.files st !! path with
        | Some (Cache.File image) => (Ok (Some image), st)
        | Some Cache.Dangling =>
            if Cache.truthy (Some path) then (Ok None, invalidated slug st)
            else (Ok None, st)
        | None =>
            if Cache.truthy (Some path) then (Throw ENOENT, st)
            else (Ok None, st)
        end
    end.
Proof.
  unfold Cache.lookupCache, Cache.isHit, Cache.invalidate, invalidated, mbind,
    Cache.M_bind, Cache.cacheHas, Cache.cacheGet, Cache.existsSync,
    Cache.readFile, Cache.rm, Cache.cacheDelete, mret, Cache.M_ret.
  rewrite has_lookup.
  destruct (Cache.lookup (Cache.screenshotCache st) slug) as [path|] eqn:Hidx;
    cbn [Cache.pathOf]; rewrite ?Hidx; [|done].
  cbn [Cache.pathOf].
  destruct (Cache.files st !! path) as [[image|]|] eqn:Hfile;
    rewrite ?Hidx; cbn [Cache.pathOf]; rewrite ?Hfile; [done|..];
    destruct path; cbn [Cache.truthy]; try done;
    cbn beta; rewrite ?Hidx; cbn [Cache.pathOf]; by rewrite ?Hfile.
Qed.

(** C3, what the code does: with the key in the index and its file gone,
    the lookup calls [rm] on the missing file; [rm] throws [ENOENT], the
    handler fails and the entry stays in the index. *)
Theorem stale_entry_lookup_throws
    (dirname : string) (capture : QueryDictionary -> result string)
    (cmp : string -> string -> Z) (query : QueryDictionary) (uuid : string)
    (st : Cache.State) (path : string) :
  Cache.lookup (Cache.screenshotCache st) (toScreenshotCacheSlug cmp query)
  = Some path ->
  path <> "" -> Cache.files st !! path = None ->
  Cache.lookupCache (toScreenshotCacheSlug cmp query) st = (Throw ENOENT, st) /\
  Cache.screenshot dirname capture cmp query uuid st = (Throw ENOENT, st) /\
  Cache.has (Cache.screenshotCache st) (toScreenshotCacheSlug cmp query) = true.
Proof.
  intros Hidx Hpath Hfile.
  assert (Cache.lookupCache (toScreenshotCacheSlug cmp query) st
          = (Throw ENOENT, st)) as Hlookup.
  { rewrite lookupCache_cases, Hidx, Hfile. by destruct path. }
  split; [exact Hlookup|]. split; [|by eapply lookup_has].
  unfold Cache.screenshot, mbind, Cache.M_bind. by rewrite Hlookup.
Qed.

Lemma stale_entry_lookup_throws_witness :
  let st := {| Cache.files := ∅;
               Cache.screenshotCache := [("tz:Etc/UTC", "/srv/.tmp/u1.png")] |} in
  Cache.screenshot "/srv" (fun _ => Ok "PNG") codeUnitCompare
    [("tz", QStr "Etc/UTC")] "u2" st
  = (Throw ENOENT, st).
Proof.
  cbv zeta.
  apply (stale_entry_lookup_throws "/srv" (fun _ => Ok "PNG") codeUnitCompare
           [("tz", QStr "Etc/UTC")] "u2"
           {| Cache.files := ∅;
              Cache.screenshotCache := [("tz:Etc/UTC", "/srv/.tmp/u1.png")] |}
           "/srv/.tmp/u1.png").
  - reflexivity.
  - discriminate.
  - reflexivity.
Defined.

Lemma store_result dirname slug uuid image st :
  Cache.store dirname slug uuid image st
  = (Ok tt,
     {| Cache.files :=
          <[Cache.cacheJson dirname :=
              Cache.File
                (Cache.JSON_stringify
                   (Cache.assign (Cache.screenshotCache st) slug
                      (Cache.freshPath dirname uuid)))]>
            (<[Cache.freshPath dirname uuid := Cache.File image]> (Cache.files st));
        Cache.screenshotCache :=
          Cache.assign (Cache.screenshotCache st) slug
            (Cache.freshPath dirname uuid) |}).
Proof.
  unfold Cache.store, mbind, Cache.M_bind, Cache.cacheSet, Cache.cacheGet,
    Cache.writeFile, Cache.cacheStringify.
  cbn [Cache.screenshotCache Cache.files]. by rewrite lookup_assign.
Qed.

(** The lookup leaves the state as it was, but for the invalidation of an
    entry whose path is a dangling link. *)
Lemma lookupCache_outcome slug st r st' :
  Cache.lookupCache slug st = (r, st') ->
  st' = st \/ (r = Ok None /\ entryDangling slug st /\ st' = invalidated slug st).
Proof.
  rewrite lookupCache_cases.
  destruct (Cache.lookup (Cache.screenshotCache st) slug) as [path|] eqn:Hidx;
    [|intros [= _ <-]; by left].
  destruct (Cache.files st !! path) as [[image|]|] eqn:Hfile.
  - intros [= _ <-]. by left.
  - destruct path as [|a path]; cbn [Cache.truthy]; intros [= <- <-]; [by left|].
    right. split; [done|]. split; [|done]. by exists (String a path).
  - destruct path; cbn [Cache.truthy]; intros [= _ <-]; by left.
Qed.

(** X2: the lookup of the screenshot handler leaves the index and the
    files as they were, whether it hits, misses or throws, in every case
    but one: when the path of the entry names a dangling link, it removes
    the link and the entry and reports a miss. *)
Theorem lookupCache_state slug st r st' :
  Cache.lookupCache slug st = (r, st') ->
  (st' = st
   \/ (r = Ok None
       /\ exists path,
            Cache.lookup (Cache.screenshotCache st) slug = Some path
            /\ Cache.files st !! path = Some Cache.Dangling
            /\ Cache.files st' = delete path (Cache.files st)
            /\ Cache.screenshotCache st'
               = Cache.remove (Cache.screenshotCache st) slug))
  /\ (forall path,
        Cache.lookup (Cache.screenshotCache st) slug = Some path -> path <> "" ->
        Cache.files st !! path = Some Cache.Dangling ->
        r = Ok None
        /\ Cache.files st' = delete path (Cache.files st)
        /\ Cache.has (Cache.screenshotCache st') slug = false).
Proof.
  intros Hrun. split.
  - apply lookupCache_outcome in Hrun as [->|(-> & (path & Hidx & _ & Hfile) & ->)];
      [by left|].
    right. split; [done|]. exists path. unfold invalidated.
    cbn [Cache.files Cache.screenshotCache]. by rewrite Hidx.
  - intros path Hidx Hpath Hfile. revert Hrun.
    rewrite lookupCache_cases, Hidx, Hfile.
    destruct path as [|a path]; [done|]. cbn [Cache.truthy].
    intros [= <- <-]. unfold invalidated. cbn [Cache.files Cache.screenshotCache].
    rewrite Hidx. split; [done|]. split; [done|].
    unfold Cache.has, Cache.remove. apply not_true_iff_false.
    rewrite existsb_exists. intros (e & He & Hk).
    apply list_elem_of_In, list_elem_of_filter in He as [Hne _].
    by apply String.eqb_eq in Hk.
Qed.

Lemma lookupCache_state_witness :
  let st := {| Cache.files := {[ "/srv/.tmp/u1.png" := Cache.Dangling ]};
               Cache.screenshotCache := [("tz:Etc/UTC", "/srv/.tmp/u1.png")] |} in
  let st' := (Cache.lookupCache "tz:Etc/UTC" st).2 in
  st' = st
  \/ ((Cache.lookupCache "tz:Etc/UTC" st).1 = Ok None
      /\ exists path,
           Cache.lookup (Cache.screenshotCache st) "tz:Etc/UTC" = Some path
           /\ Cache.files st !! path = Some Cache.Dangling
           /\ Cache.files st' = delete path (Cache.files st)
           /\ Cache.screenshotCache st'
              = Cache.remove (Cache.screenshotCache st) "tz:Etc/UTC").
Proof.
  cbv zeta.
  apply (lookupCache_state "tz:Etc/UTC"
           {| Cache.files := {[ "/srv/.tmp/u1.png" := Cache.Dangling ]};
              Cache.screenshotCache := [("tz:Etc/UTC", "/srv/.tmp/u1.png")] |}).
  apply surjective_pairing.
Defined.

Lemma store_persisted dirname slug uuid image st :
  Cache.persisted dirname (Cache.store dirname slug uuid image st).2.
Proof.
  rewrite store_result. unfold Cache.persisted.
  cbn [snd Cache.screenshotCache Cache.files]. by rewrite lookup_insert_eq.
Qed.

(** A run of the handler, by its lookup and its capture. *)
Lemma screenshot_unfold dirname capture cmp query uuid st :
  Cache.screenshot dirname capture cmp query uuid st
  = match Cache.lookupCache (toScreenshotCacheSlug cmp query) st with
    | (Ok (Some image), st1) => (Ok image, st1)
    | (Ok None, st1) =>
        match capture query with
        | Ok image =>
            (Ok image,
             (Cache.store dirname (toScreenshotCacheSlug cmp query) uuid image st1).2)
        | Throw e => (Throw e, st1)
        end
    | (Throw e, st1) => (Throw e, st1)
    end.
Proof.
  unfold Cache.screenshot, mbind at 1, Cache.M_bind at 1.
  destruct (Cache.lookupCache _ st) as [[[image|]|e] st1]; [done| |done].
  unfold mbind, Cache.M_bind. destruct (capture query) as [image|e]; [|done].
  by rewrite store_result.
Qed.

(** A run of the handler leaves the state as it was, or as the store left
    it, each possibly after the invalidation of a dangling entry. *)
Lemma screenshot_state dirname capture cmp query uuid st r st' :
  Cache.screenshot dirname capture cmp query uuid st = (r, st') ->
  let slug := toScreenshotCacheSlug cmp query in
  st' = st
  \/ (exists e, capture query = Throw e /\ r = Throw e
                /\ entryDangling slug st /\ st' = invalidated slug st)
  \/ (exists image,
        r = Ok image /\ st' = (Cache.store dirname slug uuid image st).2)
  \/ (exists image,
        r = Ok image /\ entryDangling slug st
        /\ st' = (Cache.store dirname slug uuid image (invalidated slug st)).2).
Proof.
  cbv zeta. rewrite screenshot_unfold.
  destruct (Cache.lookupCache _ st) as [[[image|]|e] st1] eqn:Hlookup;
    apply lookupCache_outcome in Hlookup.
  - destruct Hlookup as [->|([=] & _)]. intros [= _ <-]. by left.
  - destruct (capture query) as [image|e] eqn:Hcapture; intros [= <- <-].
    + destruct Hlookup as [->|(_ & Hd & ->)].
      * right; right; left. by exists image.
      * right; right; right. by exists image.
    + destruct Hlookup as [->|(_ & Hd & ->)]; [by left|].
      right; left. by exists e.
  - destruct Hlookup as [->|([=] & _)]. intros [= _ <-]. by left.
Qed.

Lemma lookup_remove_ne idx key k :
  k <> key -> Cache.lookup (Cache.remove idx key) k = Cache.lookup idx k.
Proof.
  intros Hne. unfold Cache.remove, Cache.Index.
  induction idx as [|[k' v'] idx IH]; [done|].
  rewrite filter_cons. cbn [fst Cache.lookup].
  destruct (decide (k' <> key)) as [Hk|Hk]; cbn [Cache.lookup].
  - by rewrite IH.
  - apply dec_stable in Hk as ->.
    destruct (String.eqb_spec key k); [congruence|exact IH].
Qed.



(** A hit: the key is in the index and its file is there. *)
Lemma lookupCache_hit slug st path image :
  Cache.lookup (Cache.screenshotCache st) slug = Some path ->
  Cache.files st !! path = Some (Cache.File image) ->
  Cache.lookupCache slug st = (Ok (Some image), st).
Proof. intros Hidx Hfile. by rewrite lookupCache_cases, Hidx, Hfile. Qed.

(** C9: storing bytes under a key and looking the key up at once returns
    the stored bytes, read from the path the index holds for the key. *)
Theorem store_then_lookup_roundtrip
    (dirname slug uuid image : string) (st : Cache.State) :
  exists st' path,
    Cache.store dirname slug uuid image st = (Ok tt, st') /\
    Cache.lookup (Cache.screenshotCache st') slug = Some path /\
    Cache.files st' !! path = Some (Cache.File image) /\
    Cache.lookupCache slug st' = (Ok (Some image), st').
Proof.
  eexists _, (Cache.freshPath dirname uuid).
  split; [apply store_result|]. cbn [Cache.screenshotCache Cache.files].
  assert (forall idx,
             (<[Cache.cacheJson dirname := Cache.File (Cache.JSON_stringify idx)]>
                (<[Cache.freshPath dirname uuid := Cache.File image]> (Cache.files st)))
               !! Cache.freshPath dirname uuid = Some (Cache.File image)) as Hfile.
  { intros idx. rewrite lookup_insert_ne, lookup_insert_eq; [done|].
    intros Heq. by apply (freshPath_is_not_cacheJson dirname uuid). }
  split; [apply lookup_assign|]. split; [apply Hfile|].
  eapply lookupCache_hit; cbn [Cache.screenshotCache Cache.files];
    [apply lookup_assign|apply Hfile].
Qed.

(** * Further properties of the handlers *)

(** ** The additional rows *)

Lemma split_nonempty c s : split c s <> [].
Proof.
  destruct s as [|a s]; cbn [split]; [done|].
  destruct (Ascii.eqb a c); [done|]. by destruct (split c s).
Qed.

(** Joining the pieces of a split gives the string back. *)
Lemma join_split c s : join (String c "") (split c s) = s.
Proof.
  induction s as [|a s IH]; [done|]. cbn [split].
  destruct (Ascii.eqb a c) eqn:Hac.
  - apply Ascii.eqb_eq in Hac as ->.
    destruct (split c s) as [|p ps] eqn:Hs; [by destruct (split_nonempty c s)|].
    rewrite join_cons2, append_nil_l, append_cons, append_nil_l. by rewrite IH.
  - destruct (split c s) as [|p ps] eqn:Hs; [by destruct (split_nonempty c s)|].
    destruct ps as [|p' ps].
    + cbn [join] in *. by rewrite IH.
    + rewrite join_cons2 in *. rewrite append_cons. by rewrite IH.
Qed.

Lemma split_pieces_free c s : Forall (fun p => occurs c p = false) (split c s).
Proof.
  induction s as [|a s IH]; cbn [split]; [by repeat constructor|].
  destruct (Ascii.eqb a c) eqn:Hac; [by constructor|].
  destruct (split c s) as [|p ps]; [by repeat constructor; cbn; rewrite Hac|].
  inversion IH as [|?? Hp Hps]; subst. constructor; [|done].
  cbn [occurs]. by rewrite Hac, Hp.
Qed.

Lemma split_length c s : length (split c s) = S (countChar c s).
Proof.
  induction s as [|a s IH]; [done|]. cbn [split countChar].
  destruct (Ascii.eqb a c); cbn [length]; [by rewrite IH|].
  destruct (split c s); cbn [length] in *; lia.
Qed.

(** X3: a string value of [additionalTimezones] gives one additional row
    per comma-separated piece, empty pieces included: one row more than
    the string has commas, after the five built-in rows and in the order
    of the string; each shows its piece as name and zone with locale
    en-US, no piece holds a comma, and the pieces joined with commas are
    the string again. *)
Theorem additional_rows_of_comma_string (q : QueryDictionary) (s : string) :
  get q "additionalTimezones" = Some (QStr s) ->
  Embed.keyFormats q
  = Embed.builtinFormats
    ++ map (fun z => {| Embed.name := z; Embed.timezone := z;
                        Embed.locale := "en-US" |}) (split "," s)
  /\ length (Embed.keyFormats q) = (6 + countChar "," s)%nat
  /\ Forall (fun z => occurs "," z = false) (split "," s)
  /\ join "," (split "," s) = s.
Proof.
  intros Hget. unfold Embed.keyFormats, Embed.additionalZones. rewrite Hget.
  split; [done|]. split.
  - rewrite length_app, length_map, split_length. done.
  - split; [apply split_pieces_free|apply (join_split ","%char)].
Qed.

Lemma additional_rows_of_comma_string_witness :
  length (Embed.keyFormats [("additionalTimezones", QStr "Asia/Tokyo,,Europe/Paris")])
  = 8%nat.
Proof.
  apply (additional_rows_of_comma_string
           [("additionalTimezones", QStr "Asia/Tokyo,,Europe/Paris")]
           "Asia/Tokyo,,Europe/Paris").
  reflexivity.
Defined.

Lemma mapResult_Throw {A B} (f : A -> result B) l x e :
  x ∈ l -> f x = Throw e -> exists e', mapResult f l = Throw e'.
Proof.
  induction l as [|y l IH]; [by intros ?%elem_of_nil|].
  intros [->|Hin]%elem_of_cons Hx; cbn [mapResult]; unfold mbind, result_bind.
  - rewrite Hx. by exists e.
  - destruct (f y); [|by eexists].
    destruct (IH Hin Hx) as [e' ->]. by exists e'.
Qed.

Section FragmentFailure.

Context {T : Temporal}.

(** X4: an additional zone that the library cannot convert to makes the
    whole fragment throw: no table is produced without its row. *)
Theorem unknown_additional_zone_fails_fragment
    (q : QueryDictionary) (clock : string -> Instant)
    (target : ZonedDateTime) (z : string) (e : Error) :
  Embed.targetDate q = Ok target ->
  z ∈ Embed.additionalZones q ->
  z <> toString (Embed.mainTimezone q) ->
  toZonedDateTimeISO (toInstant target) z = Throw e ->
  exists e', Embed.fragment q clock = Throw e'.
Proof.
  intros Htarget Hz Hne Hconv.
  assert (exists e', Embed.formatRows q target = Throw e') as [e' Hrows].
  { apply (mapResult_Throw _ _ (Embed.additionalFormat z) e).
    - unfold Embed.keyFormats. apply elem_of_app. right.
      by apply elem_of_map_2.
    - unfold Embed.formatRow, Embed.resultDatetime, mbind, result_bind.
      cbn [Embed.additionalFormat Embed.timezone].
      destruct (looseEq z (Embed.mainTimezone q)) eqn:Heq.
      + by apply String.eqb_eq in Heq.
      + by rewrite Hconv. }
  assert (exists e'', forall now clss,
             Embed.styleBlock q target now clss = Throw e'') as [e'' Hblock].
  { unfold Embed.styleBlock, mbind, result_bind. rewrite Hrows.
    destruct (Embed.mainRow q target); by eexists. }
  exists e''. unfold Embed.fragment, mbind at 1, result_bind at 1. rewrite Htarget.
  unfold Embed.styles. cbn [mapResult]. unfold mbind, result_bind.
  by rewrite !Hblock.
Qed.

End FragmentFailure.

Lemma unknown_additional_zone_fails_fragment_witness :
  exists e',
    Embed.fragment
      (T := knownZonesTemporal (map Embed.timezone Embed.builtinFormats))
      [("additionalTimezones", QStr "Mars/Olympus")] (fun _ => 0)
    = Throw e'.
Proof.
  apply (unknown_additional_zone_fails_fragment
           (T := knownZonesTemporal (map Embed.timezone Embed.builtinFormats))
           [("additionalTimezones", QStr "Mars/Olympus")] (fun _ => 0)
           ("America/Denver", 960) "Mars/Olympus" RangeError).
  - reflexivity.
  - apply (bool_decide_unpack (_ ∈ _)). vm_compute. exact I.
  - discriminate.
  - reflexivity.
Defined.

(** ** The shape of a cache key *)

Lemma occurs_join_head c sep x l : occurs c x = true -> occurs c (join sep (x :: l)) = true.
Proof.
  intros Hx. destruct l; [done|]. rewrite join_cons2, occurs_app, Hx. done.
Qed.

(** X5: the cache key is empty for the query without parameters only,
    and every other cache key holds a colon; so no cache key is the name
    of a property that the index inherits, nor an array index. *)
Theorem slug_empty_or_with_colon (cmp : string -> string -> Z) (q : QueryDictionary) :
  (toScreenshotCacheSlug cmp q = "" <-> q = [])
  /\ (q <> [] -> occurs ":" (toScreenshotCacheSlug cmp q) = true).
Proof.
  assert (q <> [] -> occurs ":" (toScreenshotCacheSlug cmp q) = true) as Hcolon.
  { intros Hq. unfold toScreenshotCacheSlug.
    destruct (sort cmp q) as [|e l] eqn:Hs.
    - apply (f_equal length) in Hs. rewrite (Permutation_length (sort_perm cmp q)) in Hs.
      by destruct q.
    - cbn [map]. apply occurs_join_head. rewrite formatEntry_sep, occurs_app.
      cbn [occurs]. rewrite Ascii.eqb_refl. by rewrite orb_true_r. }
  split; [|exact Hcolon]. split.
  - intros Hslug. destruct q as [|e q]; [done|].
    specialize (Hcolon ltac:(done)). by rewrite Hslug in Hcolon.
  - by intros ->.
Qed.

(** ** Reading numbers *)

Lemma occurs_rev_app c s1 s2 :
  occurs c (String.rev_app s1 s2) = occurs c s1 || occurs c s2.
Proof.
  revert s2. induction s1 as [|a s1 IH]; intros s2; cbn [String.rev_app occurs]; [done|].
  rewrite IH. cbn [occurs]. by destruct (Ascii.eqb a c), (occurs c s1), (occurs c s2).
Qed.

Lemma occurs_trimStart c s :
  isWhiteSpace c = false -> occurs c (trimStart s) = occurs c s.
Proof.
  intros Hc. induction s as [|a s IH]; [done|]. cbn [trimStart].
  destruct (isWhiteSpace a) eqn:Ha; [|done].
  rewrite IH. cbn [occurs]. destruct (Ascii.eqb a c) eqn:Hac; [|done].
  apply Ascii.eqb_eq in Hac as ->. congruence.
Qed.

(** Trimming removes white space only. *)
Lemma occurs_trim c s : isWhiteSpace c = false -> occurs c (trim s) = occurs c s.
Proof.
  intros Hc. unfold trim, String.rev.
  rewrite occurs_rev_app, orb_false_r, (occurs_trimStart c _ Hc).
  by rewrite occurs_rev_app, orb_false_r, (occurs_trimStart c _ Hc).
Qed.

Lemma allChars_rev_app P s1 s2 :
  allChars P (String.rev_app s1 s2) = allChars P s1 && allChars P s2.
Proof.
  revert s2. induction s1 as [|a s1 IH]; intros s2; cbn [String.rev_app allChars]; [done|].
  rewrite IH. cbn [allChars]. by destruct (P a), (allChars P s1), (allChars P s2).
Qed.

Lemma rev_app_rev_app s1 s2 s3 :
  String.rev_app (String.rev_app s1 s2) s3 = String.rev_app s2 (s1 +:+ s3).
Proof.
  revert s2 s3. induction s1 as [|a s1 IH]; intros s2 s3; cbn [String.rev_app]; [done|].
  rewrite IH. cbn [String.rev_app]. by rewrite append_cons.
Qed.

Lemma rev_involutive s : String.rev (String.rev s) = s.
Proof.
  unfold String.rev. rewrite rev_app_rev_app. cbn [String.rev_app].
  apply append_nil_r.
Qed.

Lemma trimStart_blank s : allChars isWhiteSpace s = true -> trimStart s = "".
Proof.
  induction s as [|a s IH]; [done|]. cbn [allChars trimStart].
  intros [-> Hs]%andb_true_iff. by apply IH.
Qed.

Lemma trimStart_none s :
  allChars (fun a => negb (isWhiteSpace a)) s = true -> trimStart s = s.
Proof.
  destruct s as [|a s]; [done|]. cbn [allChars trimStart].
  intros [Ha _]%andb_true_iff. by apply negb_true_iff in Ha as ->.
Qed.

(** A blank string trims to nothing, a string without white space to itself. *)
Lemma trim_blank s : allChars isWhiteSpace s = true -> trim s = "".
Proof. intros Hs. unfold trim. by rewrite (trimStart_blank s Hs). Qed.

Lemma trim_none s :
  allChars (fun a => negb (isWhiteSpace a)) s = true -> trim s = s.
Proof.
  intros Hs. unfold trim. rewrite (trimStart_none s Hs).
  rewrite trimStart_none; [apply rev_involutive|].
  unfold String.rev. rewrite allChars_rev_app, Hs. done.
Qed.

Lemma StringNumericValue_cases s :
  (trim s = "" /\ StringNumericValue s = Finite 0 0)
  \/ (exists base x r,
        trim s = String "0" (String x r) /\ Ascii.eqb x "," = false
        /\ digitValue 10 x = None
        /\ StringNumericValue s = nonDecimal base r)
  \/ (exists r, trim s = String "+" r /\ StringNumericValue s = unsignedDecimal r)
  \/ (exists r,
        trim s = String "-" r /\ StringNumericValue s = negate (unsignedDecimal r))
  \/ StringNumericValue s = unsignedDecimal (trim s).
Proof.
  unfold StringNumericValue. destruct (trim s) as [|a t]; [by left|].
  repeat case_match; subst; try (by right; right; right; right);
    try (by right; left; eauto 10); try (by right; right; left; eauto);
    try (by right; right; right; left; eauto).
Qed.

(** The digits that [spanDigits] reads hold no character that is no digit. *)
Lemma spanDigits_rest c base acc count s v n rest :
  digitValue base c = None ->
  spanDigits base acc count s = (v, n, rest) -> occurs c rest = occurs c s.
Proof.
  intros Hc. revert acc count. induction s as [|a s IH]; intros acc count;
    cbn [spanDigits].
  - by intros [= _ _ <-].
  - destruct (digitValue base a) as [d|] eqn:Ha; [|by intros [= _ _ <-]].
    intros Hspan. rewrite (IH _ _ Hspan). cbn [occurs].
    destruct (Ascii.eqb a c) eqn:Hac; [|done].
    apply Ascii.eqb_eq in Hac as ->. congruence.
Qed.

Lemma comma_no_digit base : digitValue base "," = None.
Proof. reflexivity. Qed.

Lemma nonDecimal_comma base r : occurs "," r = true -> nonDecimal base r = NaN.
Proof.
  intros Hr. unfold nonDecimal.
  destruct (spanDigits base 0 0 r) as [[v n] rest] eqn:Hspan.
  rewrite <- (spanDigits_rest _ _ _ _ _ _ _ _ (comma_no_digit base) Hspan) in Hr.
  by destruct rest.
Qed.

Lemma exponentPart_comma r : occurs "," r = true -> exponentPart r = None.
Proof.
  intros Hr. unfold exponentPart.
  destruct r as [|a r]; [done|].
  repeat case_match; simplify_eq;
    match goal with
    | H : spanDigits 10 0 0 ?d = (_, _, EmptyString) |- _ =>
        let Hc := fresh in
        assert (occurs "," d = true) as Hc by (cbn [occurs] in Hr |- *; exact Hr);
        rewrite <- (spanDigits_rest _ _ _ _ _ _ _ _ (comma_no_digit 10) H) in Hc;
        discriminate Hc
    | _ => done
    end.
Qed.

Lemma unsignedDecimal_comma s : occurs "," s = true -> unsignedDecimal s = NaN.
Proof.
  intros Hs. unfold unsignedDecimal.
  destruct (String.eqb s "Infinity") eqn:Hinf.
  { apply String.eqb_eq in Hinf as ->. discriminate Hs. }
  destruct (spanDigits 10 0 0 s) as [[ip icount] r1] eqn:Hspan1.
  rewrite <- (spanDigits_rest _ _ _ _ _ _ _ _ (comma_no_digit 10) Hspan1) in Hs.
  assert (forall m fcount r2, occurs "," r2 = true ->
            (if icount + fcount =? 0 then NaN
             else match r2 with
                  | EmptyString => Finite m (- fcount)
                  | String c r3 =>
                      if Ascii.eqb c "e" || Ascii.eqb c "E" then
                        match exponentPart r3 with
                        | Some x => Finite m (x - fcount)
                        | None => NaN
                        end
                      else NaN
                  end) = NaN) as Htail.
  { intros m fcount r2 Hr2. destruct (icount + fcount =? 0); [done|].
    destruct r2 as [|c r3]; [done|].
    destruct (Ascii.eqb c "e" || Ascii.eqb c "E") eqn:Hc; [|done].
    rewrite exponentPart_comma; [done|].
    cbn [occurs] in Hr2. destruct (Ascii.eqb c ",") eqn:Hcomma; [|done].
    apply Ascii.eqb_eq in Hcomma as ->. discriminate Hc. }
  destruct r1 as [|a r]; [done|].
  destruct (Ascii.eqb a ".") eqn:Hdot.
  - apply Ascii.eqb_eq in Hdot as ->.
    destruct (spanDigits 10 ip 0 r) as [[m fcount] r2] eqn:Hspan2.
    apply Htail.
    by rewrite (spanDigits_rest _ _ _ _ _ _ _ _ (comma_no_digit 10) Hspan2).
  - transitivity
      (if icount + 0 =? 0 then NaN
       else if Ascii.eqb a "e" || Ascii.eqb a "E" then
              match exponentPart r with
              | Some x => Finite ip (x - 0)
              | None => NaN
              end
            else NaN); [|by apply (Htail ip 0 (String a r))].
    apply Ascii.eqb_neq in Hdot. repeat case_match; congruence.
Qed.

Lemma StringNumericValue_comma s :
  occurs "," s = true -> StringNumericValue s = NaN.
Proof.
  intros Hs. rewrite <- (occurs_trim "," s eq_refl) in Hs.
  destruct (StringNumericValue_cases s)
    as [[Ht _]|[(base & x & r & Ht & Hx & _ & ->)|[(r & Ht & ->)|[(r & Ht & ->)| ->]]]];
    rewrite ?Ht in Hs.
  - discriminate Hs.
  - apply nonDecimal_comma. cbn [occurs] in Hs. by rewrite Hx in Hs.
  - apply unsignedDecimal_comma. exact Hs.
  - rewrite unsignedDecimal_comma; [done|exact Hs].
  - by apply unsignedDecimal_comma.
Qed.

(** A text with a comma is no number. *)
Lemma StringToNumber_comma s : occurs "," s = true -> StringToNumber s = NaN.
Proof.
  intros Hs. unfold StringToNumber. by rewrite (StringNumericValue_comma s Hs).
Qed.

(** A blank text reads as zero. *)
Lemma StringToNumber_blank s :
  allChars isWhiteSpace s = true -> StringToNumber s = Finite 0 0.
Proof.
  intros Hs. unfold StringToNumber, StringNumericValue.
  by rewrite (trim_blank s Hs).
Qed.

Lemma allChars_app P s1 s2 : allChars P (s1 +:+ s2) = allChars P s1 && allChars P s2.
Proof.
  induction s1 as [|a s1 IH]; [done|]. rewrite append_cons. cbn [allChars].
  by rewrite IH, andb_assoc.
Qed.

Lemma length_append s1 s2 :
  String.length (s1 +:+ s2) = (String.length s1 + String.length s2)%nat.
Proof. induction s1 as [|a s1 IH]; [done|]. rewrite append_cons. cbn. by rewrite IH. Qed.

Lemma digitValue_pretty_char x :
  (x < 10)%N -> digitValue 10 (pretty_N_char x) = Some (Z.of_N x).
Proof.
  intros Hx.
  assert (x = 0 \/ x = 1 \/ x = 2 \/ x = 3 \/ x = 4 \/ x = 5 \/ x = 6 \/ x = 7
          \/ x = 8 \/ x = 9)%N as Hcases by lia.
  repeat destruct Hcases as [->|Hcases]; try reflexivity. by subst.
Qed.

(** The digits that [pretty] writes for a number, as [spanDigits] reads them. *)
Lemma pretty_N_go_digits (x : N) s :
  exists d,
    pretty_N_go x s = d +:+ s /\ allChars isDigit d = true
    /\ ((0 < x)%N -> d <> "")
    /\ forall acc count rest,
         spanDigits 10 acc count (d +:+ rest)
         = spanDigits 10 (acc * 10 ^ Z.of_nat (String.length d) + Z.of_N x)
             (count + Z.of_nat (String.length d)) rest.
Proof.
  revert s. induction (N.lt_wf_0 x) as [x _ IH]; intros s.
  destruct (decide (x = 0)%N) as [->|Hx].
  - exists "". rewrite pretty_N_go_0. split; [done|]. split; [done|].
    split; [intros ?; lia|].
    intros acc count rest. rewrite append_nil_l. cbn [String.length].
    f_equal; lia.
  - rewrite pretty_N_go_step by lia.
    destruct (IH (x `div` 10)%N ltac:(apply N.div_lt; lia)
                (String (pretty_N_char (x `mod` 10)) s))
      as (d & Hd & Hdigits & _ & Hspan).
    exists (d +:+ String (pretty_N_char (x `mod` 10)) "").
    assert (digitValue 10 (pretty_N_char (x `mod` 10)) = Some (Z.of_N (x `mod` 10)))
      as Hchar by (apply digitValue_pretty_char, N.mod_lt; lia).
    split; [|split; [|split]].
    + by rewrite Hd, append_assoc.
    + rewrite allChars_app, Hdigits. cbn [allChars]. unfold isDigit. by rewrite Hchar.
    + intros _. destruct d; by rewrite ?append_cons, ?append_nil_l.
    + intros acc count rest. rewrite append_assoc, append_cons, append_nil_l, Hspan.
      cbn [spanDigits]. rewrite Hchar, length_append. cbn [String.length].
      rewrite Nat.add_1_r, Nat2Z.inj_succ, Z.pow_succ_r by lia.
      f_equal; [|lia]. rewrite (N.div_mod x 10) at 3 by lia.
      rewrite N2Z.inj_add, N2Z.inj_mul. change (Z.of_N 10) with 10. lia.
Qed.

Lemma digit_not_space a : isDigit a = true -> isWhiteSpace a = false.
Proof.
  destruct a as [[] [] [] [] [] [] [] []]; vm_compute; congruence.
Qed.

Lemma digits_no_space d :
  allChars isDigit d = true -> allChars (fun a => negb (isWhiteSpace a)) d = true.
Proof.
  induction d as [|a d IH]; [done|]. cbn [allChars].
  intros [Ha Hd]%andb_true_iff. by rewrite (digit_not_space a Ha), IH.
Qed.

(** A string of decimal digits reads as the number it writes. *)
Lemma unsignedDecimal_digits d x :
  d <> "" -> allChars isDigit d = true ->
  (forall acc count rest,
      spanDigits 10 acc count (d +:+ rest)
      = spanDigits 10 (acc * 10 ^ Z.of_nat (String.length d) + x)
          (count + Z.of_nat (String.length d)) rest) ->
  unsignedDecimal d = Finite x 0.
Proof.
  intros Hne Hdigits Hspan. unfold unsignedDecimal.
  destruct (String.eqb d "Infinity") eqn:Hinf.
  { apply String.eqb_eq in Hinf as ->. discriminate Hdigits. }
  specialize (Hspan 0 0 ""). rewrite append_nil_r in Hspan. rewrite Hspan.
  cbn [spanDigits].
  destruct (Z.eqb_spec (0 + Z.of_nat (String.length d) + 0) 0) as [Hz|_].
  - destruct d; [done|]. cbn [String.length] in Hz. lia.
  - reflexivity.
Qed.

Lemma StringNumericValue_digits d x :
  d <> "" -> allChars isDigit d = true ->
  (forall acc count rest,
      spanDigits 10 acc count (d +:+ rest)
      = spanDigits 10 (acc * 10 ^ Z.of_nat (String.length d) + x)
          (count + Z.of_nat (String.length d)) rest) ->
  StringNumericValue d = Finite x 0
  /\ StringNumericValue (String "-" d) = Finite (- x) 0.
Proof.
  intros Hne Hdigits Hspan.
  pose proof (unsignedDecimal_digits d x Hne Hdigits Hspan) as Hdec.
  pose proof (trim_none d (digits_no_space d Hdigits)) as Htrim.
  split.
  - destruct (StringNumericValue_cases d)
      as [[Ht _]|[(base & c & r & Ht & _ & Hc & _)|[(r & Ht & _)|[(r & Ht & _)|Hd]]]];
      rewrite Htrim in *.
    + done.
    + subst d. cbn [allChars] in Hdigits. unfold isDigit at 2 in Hdigits.
      rewrite Hc in Hdigits. by rewrite andb_false_r in Hdigits.
    + subst d. discriminate Hdigits.
    + subst d. discriminate Hdigits.
    + by rewrite Hd.
  - unfold StringNumericValue.
    replace (trim (String "-" d)) with (String "-" d).
    + by rewrite Hdec.
    + symmetry. apply trim_none. cbn [allChars].
      by rewrite (digits_no_space d Hdigits).
Qed.

(** The decimal numeral of an integer has that integer as its value. *)
Lemma StringNumericValue_pretty (z : Z) : StringNumericValue (pretty z) = Finite z 0.
Proof.
  assert (forall n : N, (0 < n)%N ->
            StringNumericValue (pretty n) = Finite (Z.of_N n) 0
            /\ StringNumericValue (String "-" (pretty n)) = Finite (- Z.of_N n) 0)
    as Hpos.
  { intros n Hn. unfold pretty, pretty_N. rewrite decide_False by lia.
    destruct (pretty_N_go_digits n "") as (d & Hd & Hdigits & Hne & Hspan).
    rewrite Hd, append_nil_r. apply StringNumericValue_digits; [by apply Hne|done|].
    exact Hspan. }
  destruct z as [|p|p].
  - reflexivity.
  - apply (Hpos (N.pos p)). lia.
  - apply (Hpos (N.pos p)). lia.
Qed.

Lemma nearestBinary64_integer p :
  0 < p < 2 ^ 53 ->
  exists k, 0 <= k /\ nearestBinary64 p 1 = Some (p * 2 ^ k, - k).
Proof.
  intros Hp. unfold nearestBinary64.
  pose proof (Z.log2_spec p ltac:(lia)) as [Hlo Hhi].
  pose proof (Z.log2_nonneg p) as Hnn.
  assert (Z.log2 p < 53) as Hlt by (apply Z.log2_lt_pow2; lia).
  set (L := Z.log2 p) in *.
  change (Z.log2 1) with 0.
  replace (0 <=? L - 0 - 53) with false by (symmetry; apply Z.leb_gt; lia).
  cbv zeta beta iota.
  assert (2 ^ 53 <= p * 2 ^ (- (L - 0 - 53)) / 1) as Hbig.
  { rewrite Z.div_1_r. replace (- (L - 0 - 53)) with (53 - L) by lia.
    replace (2 ^ 53) with (2 ^ L * 2 ^ (53 - L)).
    - apply Z.mul_le_mono_nonneg_r; [apply Z.pow_nonneg|]; lia.
    - rewrite <- Z.pow_add_r by lia. f_equal. lia. }
  apply Z.leb_le in Hbig. rewrite Hbig.
  replace (Z.max (L - 0 - 53 + 1) (-1074)) with (L - 52) by lia.
  exists (52 - L). split; [lia|].
  assert (0 < 2 ^ (52 - L)) as Hpow by (apply Z.pow_pos_nonneg; lia).
  assert (p * 2 ^ (52 - L) < 2 ^ 53) as Hsmall.
  { replace (2 ^ 53) with (2 ^ (L + 1) * 2 ^ (52 - L)).
    - apply Z.mul_lt_mono_pos_r; lia.
    - rewrite <- Z.pow_add_r by lia. f_equal. lia. }
  assert (2 ^ 53 <= 2 ^ (1024 - (L - 52))) as Hfar.
  { apply Z.pow_le_mono_r; lia. }
  destruct (Z.leb_spec 0 (L - 52)) as [Hz|Hz].
  - assert (L = 52) as HL by lia. rewrite HL in *.
    change (52 - 52) with 0 in *. change (2 ^ 0) with 1 in *.
    rewrite !Z.mul_1_r in *. rewrite Z.div_1_r, Z.mod_1_r.
    change (2 * 0 <? 1) with true. cbv iota.
    replace (2 ^ (1024 - 0) <=? p) with false; [done|].
    symmetry. apply Z.leb_gt. lia.
  - replace (- (L - 52)) with (52 - L) by lia.
    rewrite Z.div_1_r, Z.mod_1_r. change (2 * 0 <? 1) with true. cbv iota.
    replace (2 ^ (1024 - (L - 52)) <=? p * 2 ^ (52 - L)) with false.
    + do 2 f_equal. lia.
    + symmetry. apply Z.leb_gt. lia.
Qed.

Lemma ofBinary_integer v k : 0 <= k -> ofBinary (v * 2 ^ k) (- k) = Finite v 0.
Proof.
  intros Hk. unfold ofBinary.
  assert (0 < 2 ^ k) as Hpow by (apply Z.pow_pos_nonneg; lia).
  destruct (Z.leb_spec 0 (- k)) as [Hz|Hz].
  - assert (k = 0) as -> by lia. cbn. f_equal. lia.
  - rewrite Z.opp_involutive, Z.mod_mul, Z.div_mul by lia. done.
Qed.

(** An integer below 2^53 in magnitude is a binary64. *)
Lemma roundToBinary64_integer z :
  Z.abs z < 2 ^ 53 -> roundToBinary64 (Finite z 0) = Finite z 0.
Proof.
  intros Hz. unfold roundToBinary64.
  destruct (Z.eqb_spec z 0) as [->|Hne]; [done|].
  cbn [Z.leb Z.compare]. change (10 ^ 0) with 1. rewrite Z.mul_1_r.
  destruct (nearestBinary64_integer (Z.abs z) ltac:(lia)) as (k & Hk & ->).
  rewrite Z.mul_assoc, (Z.mul_comm (Z.sgn z)), Z.abs_sgn. by apply ofBinary_integer.
Qed.

(** Unary plus reads the decimal numeral of an integer below 2^53 in
    magnitude as that integer. *)
Lemma StringToNumber_pretty (z : Z) :
  Z.abs z < 2 ^ 53 -> StringToNumber (pretty z) = Finite z 0.
Proof.
  intros Hz. unfold StringToNumber. rewrite StringNumericValue_pretty.
  by apply roundToBinary64_integer.
Qed.

(** Beyond 2^53 the numeral of an integer is read as the nearest binary64,
    and beyond the finite ones as an infinity, which [from] refuses. *)
Lemma large_numerals_are_rounded :
  StringToNumber "9007199254740993" = Finite 9007199254740992 0 /\
  StringToNumber "9007199254740995" = Finite 9007199254740996 0 /\
  StringToNumber "0.9999999999999999999999" = Finite 1 0 /\
  StringToNumber "1e400" = Infinity false /\
  Embed.targetFields [("year", QStr "1e400")] = Throw RangeError.
Proof. repeat split; vm_compute; reflexivity. Qed.

Lemma toIntegerWithTruncation_integer v : Embed.toIntegerWithTruncation (Finite v 0) = Ok v.
Proof. cbn. f_equal. lia. Qed.

(** [from] throws as soon as one field is refused. *)
Lemma prepareFields_Throw bag :
  Embed.toIntegerWithTruncation (Embed.bag_year bag) = Throw RangeError
  \/ Embed.toPositiveIntegerWithTruncation (Embed.bag_month bag) = Throw RangeError
  \/ Embed.toPositiveIntegerWithTruncation (Embed.bag_day bag) = Throw RangeError
  \/ Embed.toIntegerWithTruncation (Embed.bag_hour bag) = Throw RangeError
  \/ Embed.toIntegerWithTruncation (Embed.bag_minute bag) = Throw RangeError ->
  Embed.prepareFields bag = Throw RangeError.
Proof.
  intros H. unfold Embed.prepareFields, mbind, result_bind.
  destruct (toPositiveIntegerWithTruncation_cases (Embed.bag_day bag))
    as [[d Hd]|Hd]; rewrite Hd in *; [|done].
  destruct (toIntegerWithTruncation_cases (Embed.bag_hour bag))
    as [[h Hh]|Hh]; rewrite Hh in *; [|done].
  destruct (toIntegerWithTruncation_cases (Embed.bag_minute bag))
    as [[mi Hmi]|Hmi]; rewrite Hmi in *; [|done].
  destruct (toPositiveIntegerWithTruncation_cases (Embed.bag_month bag))
    as [[mo Hmo]|Hmo]; rewrite Hmo in *; [|done].
  destruct (toIntegerWithTruncation_cases (Embed.bag_year bag))
    as [[y Hy]|Hy]; rewrite Hy in *; [|done].
  destruct H as [H|[H|[H|[H|H]]]]; discriminate H.
Qed.

Lemma targetFields_NaN q key v :
  key ∈ ["year"; "month"; "day"; "hour"; "minute"] ->
  get q key = Some v -> StringToNumber (toString v) = NaN ->
  Embed.targetFields q = Throw RangeError.
Proof.
  intros Hkey Hget Hnan. apply prepareFields_NaN. cbn.
  repeat match goal with
         | H : _ ∈ _ :: _ |- _ => apply elem_of_cons in H as [->|H]
         | H : _ ∈ [] |- _ => by apply elem_of_nil in H
         end; rewrite Hget; cbn; tauto.
Qed.

Lemma fragment_targetFields_Throw {T : Temporal} q clock e :
  Embed.targetFields q = Throw e -> Embed.fragment q clock = Throw e.
Proof.
  intros H. unfold Embed.fragment, Embed.targetDate, mbind, result_bind.
  by rewrite H.
Qed.

Lemma occurs_join_two c x y l : occurs c (join (String c "") (x :: y :: l)) = true.
Proof.
  rewrite join_cons2, !occurs_app. cbn [occurs]. rewrite Ascii.eqb_refl.
  by rewrite orb_true_r.
Qed.

(** X6: a year, month, day, hour or minute whose text holds a comma, as
    that of a parameter repeated in the query string always does, is no
    number: the construction of the main zoned date-time throws a
    [RangeError] and the fragment builder fails with it. *)
Theorem comma_in_date_parameter_throws
    (q : QueryDictionary) (key : string) (v : QueryValue) :
  key ∈ ["year"; "month"; "day"; "hour"; "minute"] ->
  get q key = Some v ->
  (occurs "," (toString v) = true \/ exists x y l, v = QArr (x :: y :: l)) ->
  Embed.targetFields q = Throw RangeError
  /\ forall (T : Temporal) (clock : string -> Instant),
       Embed.fragment q clock = Throw RangeError.
Proof.
  intros Hkey Hget Hcomma.
  assert (occurs "," (toString v) = true) as Hocc.
  { destruct Hcomma as [|(x & y & l & ->)]; [done|]. apply (occurs_join_two ","%char). }
  assert (Embed.targetFields q = Throw RangeError) as Hfields.
  { apply (targetFields_NaN q key v); [done..|]. by apply StringToNumber_comma. }
  split; [done|]. intros T clock. by apply fragment_targetFields_Throw.
Qed.

Lemma comma_in_date_parameter_throws_witness :
  Embed.targetFields [("year", QArr ["2024"; "2025"])] = Throw RangeError.
Proof.
  apply (comma_in_date_parameter_throws [("year", QArr ["2024"; "2025"])]
           "year" (QArr ["2024"; "2025"])).
  - apply (bool_decide_unpack (_ ∈ _)). vm_compute. exact I.
  - reflexivity.
  - right. by exists "2024", "2025", [].
Defined.

(** X7: a year, hour or minute that is present but blank (empty, or white
    space only) is read as 0 and not replaced by its default; a blank
    month or day is read as 0 as well, which [from] refuses with a
    [RangeError]. *)
Theorem blank_date_parameter_is_zero
    (q : QueryDictionary) (key : string) (v : QueryValue) :
  get q key = Some v -> allChars isWhiteSpace (toString v) = true ->
  (key = "year" -> Embed.bag_year (Embed.targetBag q) = Finite 0 0) /\
  (key = "hour" -> Embed.bag_hour (Embed.targetBag q) = Finite 0 0) /\
  (key = "minute" -> Embed.bag_minute (Embed.targetBag q) = Finite 0 0) /\
  (key = "month" \/ key = "day" ->
   Embed.targetFields q = Throw RangeError
   /\ forall (T : Temporal) (clock : string -> Instant),
        Embed.fragment q clock = Throw RangeError).
Proof.
  intros Hget Hblank. pose proof (StringToNumber_blank _ Hblank) as Hzero.
  assert (key = "month" \/ key = "day" -> Embed.targetFields q = Throw RangeError)
    as Hthrow.
  { intros Hkey. apply prepareFields_Throw.
    unfold Embed.toPositiveIntegerWithTruncation.
    cbn [Embed.targetBag Embed.bag_month Embed.bag_day].
    destruct Hkey as [-> | ->]; rewrite Hget; cbn [orNumber unaryPlus];
      rewrite Hzero; cbn; tauto. }
  split; [|split; [|split; [|split]]].
  - intros ->. cbn. by rewrite Hget.
  - intros ->. cbn. by rewrite Hget.
  - intros ->. cbn. by rewrite Hget.
  - by apply Hthrow.
  - intros T clock. by apply fragment_targetFields_Throw, Hthrow.
Qed.

Lemma blank_date_parameter_is_zero_witness :
  Embed.targetFields [("month", QStr " ")] = Throw RangeError.
Proof.
  apply (blank_date_parameter_is_zero [("month", QStr " ")] "month" (QStr " "));
    [reflexivity|reflexivity|by left].
Defined.

Lemma unaryPlus_supplied o dflt v :
  suppliedAs o dflt v -> unaryPlus (orNumber o dflt) = Finite v 0.
Proof.
  intros [[-> ->]|[-> Hv]]; [done|]. cbn [orNumber unaryPlus toString].
  by apply StringToNumber_pretty.
Qed.

(** X8: date and time parameters given as decimal numerals of integers
    below 2^53 in magnitude are used as the integers they write, each
    missing one taking its own default: with a positive month and day
    these are the fields that [from] receives, and a month or day that is
    zero or negative is refused with a [RangeError]. *)
Theorem decimal_date_parameters_used
    (q : QueryDictionary) (y mo d h mi : Z) :
  suppliedAs (get q "year") 2024 y -> suppliedAs (get q "month") 1 mo ->
  suppliedAs (get q "day") 12 d -> suppliedAs (get q "hour") 16 h ->
  suppliedAs (get q "minute") 0 mi ->
  (0 < mo -> 0 < d ->
   Embed.targetFields q
   = Ok {| year := y; month := mo; day := d; hour := h; minute := mi |})
  /\ (mo <= 0 \/ d <= 0 -> Embed.targetFields q = Throw RangeError).
Proof.
  intros Hy Hmo Hd Hh Hmi.
  apply unaryPlus_supplied in Hy, Hmo, Hd, Hh, Hmi. split.
  - intros Hmo0 Hd0. unfold Embed.targetFields, Embed.prepareFields, Embed.targetBag,
      Embed.toPositiveIntegerWithTruncation, mbind, result_bind.
    cbn [Embed.bag_year Embed.bag_month Embed.bag_day Embed.bag_hour Embed.bag_minute].
    rewrite Hy, Hmo, Hd, Hh, Hmi, !toIntegerWithTruncation_integer.
    rewrite (proj2 (Z.leb_gt mo 0)), (proj2 (Z.leb_gt d 0)) by lia. done.
  - intros Hneg. apply prepareFields_Throw.
    unfold Embed.toPositiveIntegerWithTruncation, Embed.targetBag, mbind, result_bind.
    cbn [Embed.bag_year Embed.bag_month Embed.bag_day Embed.bag_hour Embed.bag_minute].
    rewrite Hmo, Hd, !toIntegerWithTruncation_integer.
    destruct Hneg as [Hneg|Hneg]; apply Z.leb_le in Hneg; rewrite Hneg; tauto.
Qed.

Lemma decimal_date_parameters_used_witness :
  Embed.targetFields
    [("tz", QStr "Etc/UTC"); ("year", QStr "2025"); ("month", QStr "1");
     ("day", QStr "1"); ("hour", QStr "0")]
  = Ok {| year := 2025; month := 1; day := 1; hour := 0; minute := 0 |}.
Proof.
  apply (decimal_date_parameters_used
           [("tz", QStr "Etc/UTC"); ("year", QStr "2025"); ("month", QStr "1");
            ("day", QStr "1"); ("hour", QStr "0")] 2025 1 1 0 0);
    try (right; split; [reflexivity|reflexivity]); try (by left); lia.
Defined.

(** ** Runs of the screenshot handler *)

Lemma lookup_assign_ne idx key value k :
  k <> key -> Cache.lookup (Cache.assign idx key value) k = Cache.lookup idx k.
Proof.
  intros Hne. induction idx as [|[k' v'] idx IH]; cbn [Cache.assign Cache.lookup].
  - destruct (String.eqb_spec key k); [congruence|done].
  - destruct (String.eqb_spec k' key) as [->|Hk']; cbn [Cache.lookup].
    + destruct (String.eqb_spec key k); [congruence|done].
    + destruct (String.eqb k' k); [done|exact IH].
Qed.

(** What a hit of the lookup tells. *)
Lemma lookupCache_Some slug st image st' :
  Cache.lookupCache slug st = (Ok (Some image), st') ->
  st' = st
  /\ exists path,
       Cache.lookup (Cache.screenshotCache st) slug = Some path
       /\ Cache.files st !! path = Some (Cache.File image).
Proof.
  rewrite lookupCache_cases.
  destruct (Cache.lookup (Cache.screenshotCache st) slug) as [path|] eqn:Hidx;
    [|done].
  destruct (Cache.files st !! path) as [[data|]|] eqn:Hfile.
  - intros [= <- <-]. split; [done|]. by exists path.
  - by destruct (Cache.truthy _).
  - by destruct (Cache.truthy _).
Qed.

(** A miss on a key that the index does not hold. *)
Lemma lookupCache_absent slug st :
  Cache.lookup (Cache.screenshotCache st) slug = None ->
  Cache.lookupCache slug st = (Ok None, st).
Proof. intros Hidx. by rewrite lookupCache_cases, Hidx. Qed.

(** After the store the index holds the fresh path and the file there
    holds the image. *)
Lemma store_holds dirname slug uuid image st :
  let st' := (Cache.store dirname slug uuid image st).2 in
  Cache.lookup (Cache.screenshotCache st') slug = Some (Cache.freshPath dirname uuid)
  /\ Cache.files st' !! Cache.freshPath dirname uuid = Some (Cache.File image).
Proof.
  cbv zeta. rewrite store_result. cbn [snd Cache.screenshotCache Cache.files].
  split; [apply lookup_assign|].
  rewrite lookup_insert_ne, lookup_insert_eq; [done|].
  intros Heq. by apply (freshPath_is_not_cacheJson dirname uuid).
Qed.

(** X9: the bytes a run of the screenshot handler sends are the contents
    of the file that the index then holds for the key of the query, and
    a repeated request for the query sends the same bytes from the cache,
    without consulting the browser and without changing the state. *)
Theorem served_bytes_cached_and_repeat_hits
    (dirname : string) (capture capture' : QueryDictionary -> result string)
    (cmp : string -> string -> Z) (query : QueryDictionary)
    (uuid uuid' image : string) (st st' : Cache.State) :
  Cache.screenshot dirname capture cmp query uuid st = (Ok image, st') ->
  (exists path,
      Cache.lookup (Cache.screenshotCache st') (toScreenshotCacheSlug cmp query)
      = Some path
      /\ Cache.files st' !! path = Some (Cache.File image))
  /\ Cache.screenshot dirname capture' cmp query uuid' st' = (Ok image, st').
Proof.
  intros Hrun.
  assert (exists path,
             Cache.lookup (Cache.screenshotCache st')
               (toScreenshotCacheSlug cmp query) = Some path
             /\ Cache.files st' !! path = Some (Cache.File image))
    as (path & Hidx & Hfile).
  { revert Hrun. rewrite screenshot_unfold.
    destruct (Cache.lookupCache _ st) as [[[data|]|e] st1] eqn:Hlookup; [| |done].
    - apply lookupCache_Some in Hlookup as [-> Hhit]. by intros [= <- <-].
    - destruct (capture query) as [data|e]; [|done]. intros [= <- <-].
      exists (Cache.freshPath dirname uuid). apply store_holds. }
  split; [by exists path|].
  rewrite screenshot_unfold. by rewrite (lookupCache_hit _ _ _ _ Hidx Hfile).
Qed.

Lemma served_bytes_cached_and_repeat_hits_witness :
  let st := {| Cache.files := ∅; Cache.screenshotCache := [] |} in
  let st' := (Cache.store "/srv" "tz:Etc/UTC" "u1" "PNG" st).2 in
  Cache.screenshot "/srv" (fun _ => Throw CaptureError) codeUnitCompare
    [("tz", QStr "Etc/UTC")] "u2" st'
  = (Ok "PNG", st').
Proof.
  cbv zeta.
  apply (served_bytes_cached_and_repeat_hits "/srv" (fun _ => Ok "PNG")
           (fun _ => Throw CaptureError) codeUnitCompare
           [("tz", QStr "Etc/UTC")] "u1" "u2" "PNG"
           {| Cache.files := ∅; Cache.screenshotCache := [] |}).
  reflexivity.
Defined.



(** X11: a run of the screenshot handler, whatever its outcome, leaves
    the entry of every key but that of its query as it was, and leaves
    every path as it was but three: the path that the index held for the
    key of the query, the fresh image and the persisted index. *)
Theorem request_touches_only_its_entry
    (dirname : string) (capture : QueryDictionary -> result string)
    (cmp : string -> string -> Z) (query : QueryDictionary) (uuid : string)
    (st : Cache.State) (r : result string) (st' : Cache.State) :
  Cache.screenshot dirname capture cmp query uuid st = (r, st') ->
  (forall key, key <> toScreenshotCacheSlug cmp query ->
               Cache.lookup (Cache.screenshotCache st') key
               = Cache.lookup (Cache.screenshotCache st) key)
  /\ (forall path,
        Cache.lookup (Cache.screenshotCache st) (toScreenshotCacheSlug cmp query)
        <> Some path ->
        path <> Cache.freshPath dirname uuid ->
        path <> Cache.cacheJson dirname ->
        Cache.files st' !! path = Cache.files st !! path).
Proof.
  intros Hrun.
  assert (forall path,
             Cache.lookup (Cache.screenshotCache st)
               (toScreenshotCacheSlug cmp query) <> Some path ->
             entryDangling (toScreenshotCacheSlug cmp query) st ->
             Cache.files (invalidated (toScreenshotCacheSlug cmp query) st) !! path
             = Cache.files st !! path) as Hinv.
  { intros path Hne (p & Hidx & _). unfold invalidated. cbn [Cache.files].
    rewrite Hidx. cbn [Cache.pathOf]. apply lookup_delete_ne. congruence. }
  apply screenshot_state in Hrun
      as [->|[(e & _ & _ & Hd & ->)|[(image & _ & ->)|(image & _ & Hd & ->)]]];
    [done|..]; rewrite ?store_result; cbn [snd Cache.screenshotCache Cache.files].
  - split; [intros key Hne; by apply lookup_remove_ne|].
    intros path Hne _ _. by apply Hinv.
  - split; [intros key Hne; by apply lookup_assign_ne|].
    intros path _ Hfresh Hjson. by rewrite !lookup_insert_ne.
  - split.
    + intros key Hne. rewrite lookup_assign_ne by done. by apply lookup_remove_ne.
    + intros path Hne Hfresh Hjson. rewrite !lookup_insert_ne by done.
      by apply Hinv.
Qed.

Lemma request_touches_only_its_entry_witness :
  let st := {| Cache.files := {[ "/srv/.tmp/u0.png" := Cache.File "OLD" ]};
               Cache.screenshotCache := [("tz:UTC", "/srv/.tmp/u0.png")] |} in
  Cache.lookup
    (Cache.screenshotCache
       (Cache.screenshot "/srv" (fun _ => Ok "PNG") codeUnitCompare
          [("tz", QStr "Etc/UTC")] "u1" st).2) "tz:UTC"
  = Some "/srv/.tmp/u0.png".
Proof.
  cbv zeta.
  destruct (request_touches_only_its_entry "/srv" (fun _ => Ok "PNG")
              codeUnitCompare [("tz", QStr "Etc/UTC")] "u1"
              {| Cache.files := {[ "/srv/.tmp/u0.png" := Cache.File "OLD" ]};
                 Cache.screenshotCache := [("tz:UTC", "/srv/.tmp/u0.png")] |}
              _ _ (surjective_pairing _)) as (Hother & _).
  rewrite Hother; [reflexivity|discriminate].
Defined.

(** ** The persisted index *)

Lemma readString_escapeChar a t :
  readString (Cache.escapeChar a +:+ t)
  = match readString t with
    | Some (d, rest) => Some (String a d, rest)
    | None => None
    end.
Proof. destruct a as [[] [] [] [] [] [] [] []]; reflexivity. Qed.

Lemma readString_escape s rest :
  readString (Cache.escape s +:+ Embed.dquote +:+ rest) = Some (s, rest).
Proof.
  induction s as [|a s IH]; [done|]. cbn [Cache.escape].
  by rewrite append_assoc, readString_escapeChar, IH.
Qed.

Lemma readQuoted_quote s rest :
  readQuoted (Cache.quoteJSONString s +:+ rest) = Some (s, rest).
Proof.
  unfold Cache.quoteJSONString. rewrite !append_assoc.
  change (Embed.dquote +:+ Cache.escape s +:+ Embed.dquote +:+ rest)
    with (String (ascii_of_nat 34) (Cache.escape s +:+ Embed.dquote +:+ rest)).
  cbn [readQuoted]. apply readString_escape.
Qed.

Lemma readProperty_stringify (comma : bool) e :
  readProperty comma (Cache.stringifyProperty e +:+ (if comma then "," else ""))
  = Some e.
Proof.
  destruct e as [k v]. unfold Cache.stringifyProperty. cbn [fst snd].
  rewrite !append_assoc.
  change (Embed.indent 4 +:+ ?s) with (String " " (String " " (String " " (String " " s)))).
  cbn [readProperty]. rewrite readQuoted_quote.
  change (": " +:+ ?s) with (String ":" (String " " s)). cbv iota beta.
  rewrite readQuoted_quote. by rewrite String.eqb_refl.
Qed.

Lemma escapeChar_no_newline a : occurs (ascii_of_nat 10) (Cache.escapeChar a) = false.
Proof. destruct a as [[] [] [] [] [] [] [] []]; reflexivity. Qed.

Lemma escape_no_newline s : occurs (ascii_of_nat 10) (Cache.escape s) = false.
Proof.
  induction s as [|a s IH]; [done|]. cbn [Cache.escape].
  by rewrite occurs_app, escapeChar_no_newline, IH.
Qed.

Lemma stringifyProperty_no_newline e :
  occurs (ascii_of_nat 10) (Cache.stringifyProperty e) = false.
Proof.
  unfold Cache.stringifyProperty, Cache.quoteJSONString.
  by rewrite !occurs_app, !escape_no_newline.
Qed.

Lemma propertyLines_no_newline obj :
  Forall (fun line => occurs (ascii_of_nat 10) line = false) (propertyLines obj).
Proof.
  induction obj as [|e [|e' obj] IH]; cbn [propertyLines]; [constructor|..].
  - repeat constructor. apply stringifyProperty_no_newline.
  - constructor; [|exact IH].
    by rewrite occurs_app, stringifyProperty_no_newline.
Qed.

Lemma readProperties_lines e obj :
  readProperties (propertyLines (e :: obj) ++ ["}"]) = Some (e :: obj).
Proof.
  revert e. induction obj as [|e' obj IH]; intros e.
  - cbn [propertyLines app readProperties].
    rewrite String.eqb_refl.
    by rewrite <- (append_nil_r (Cache.stringifyProperty e)),
      (readProperty_stringify false e).
  - change (propertyLines (e :: e' :: obj))
      with ((Cache.stringifyProperty e +:+ ",") :: propertyLines (e' :: obj)).
    cbn [app]. specialize (IH e').
    destruct (propertyLines (e' :: obj) ++ ["}"]) as [|l1 [|l2 ls]] eqn:Hlines.
    + by destruct obj.
    + discriminate IH.
    + change (readProperties ((Cache.stringifyProperty e +:+ ",") :: l1 :: l2 :: ls))
        with (match readProperty true (Cache.stringifyProperty e +:+ ","),
                    readProperties (l1 :: l2 :: ls) with
              | Some x, Some es => Some (x :: es)
              | _, _ => None
              end) at 1.
      * by rewrite (readProperty_stringify true e), IH.
Qed.

Lemma join_lines e obj :
  join Embed.nl (propertyLines (e :: obj) ++ ["}"])
  = join ("," +:+ Embed.nl) (map Cache.stringifyProperty (e :: obj))
    +:+ Embed.nl +:+ "}".
Proof.
  revert e. induction obj as [|e' obj IH]; intros e; [reflexivity|].
  change (propertyLines (e :: e' :: obj))
    with ((Cache.stringifyProperty e +:+ ",") :: propertyLines (e' :: obj)).
  cbn [app map]. specialize (IH e').
  destruct (propertyLines (e' :: obj) ++ ["}"]) as [|l1 ls] eqn:Hlines.
  { by destruct obj. }
  rewrite !join_cons2, IH. cbn [map]. by rewrite !append_assoc.
Qed.

Lemma stringify_lines e obj :
  Cache.JSON_stringify (e :: obj)
  = join Embed.nl ("{" :: propertyLines (e :: obj) ++ ["}"]).
Proof.
  unfold Cache.JSON_stringify.
  destruct (propertyLines (e :: obj) ++ ["}"]) as [|l1 ls] eqn:Hlines.
  { by destruct obj. }
  rewrite join_cons2, <- Hlines, join_lines. done.
Qed.

(** The reader gives back the index that [JSON_stringify] wrote. *)
Lemma readIndex_stringify obj : readIndex (Cache.JSON_stringify obj) = Some obj.
Proof.
  destruct obj as [|e obj]; [reflexivity|].
  unfold readIndex.
  assert (String.eqb (Cache.JSON_stringify (e :: obj)) "{}" = false) as ->.
  { rewrite stringify_lines.
    destruct (propertyLines (e :: obj) ++ ["}"]) as [|l1 ls] eqn:Hlines;
      [by destruct obj|].
    by rewrite join_cons2. }
  rewrite stringify_lines.
  change Embed.nl with (String (ascii_of_nat 10) "").
  rewrite split_join; [|done|].
  - rewrite String.eqb_refl. apply readProperties_lines.
  - constructor; [done|]. apply Forall_app. split; [|by repeat constructor].
    apply propertyLines_no_newline.
Qed.

(** X12: the text that the store persists determines the index: two
    different indexes are never written as the same [cache.json]. *)
Theorem persisted_text_determines_index (obj1 obj2 : Cache.Index) :
  Cache.JSON_stringify obj1 = Cache.JSON_stringify obj2 -> obj1 = obj2.
Proof.
  intros Heq. apply (f_equal readIndex) in Heq.
  rewrite !readIndex_stringify in Heq. by injection Heq.
Qed.

Lemma persisted_text_determines_index_witness :
  Cache.assign [] "tz:Etc/UTC" "/srv/.tmp/u1.png" = [("tz:Etc/UTC", "/srv/.tmp/u1.png")].
Proof.
  apply (persisted_text_determines_index
           (Cache.assign [] "tz:Etc/UTC" "/srv/.tmp/u1.png")
           [("tz:Etc/UTC", "/srv/.tmp/u1.png")]).
  reflexivity.
Defined.

Lemma keys_assign idx key value :
  key ∈ map fst idx -> map fst (Cache.assign idx key value) = map fst idx.
Proof.
  induction idx as [|[k v] idx IH]; cbn [map fst Cache.assign];
    [by intros ?%elem_of_nil|].
  destruct (String.eqb_spec k key) as [->|Hne]; [done|].
  intros [?|Hin]%elem_of_cons; [congruence|]. cbn [map fst]. by rewrite IH.
Qed.

Lemma keys_assign_new idx key value :
  key ∉ map fst idx -> map fst (Cache.assign idx key value) = map fst idx ++ [key].
Proof.
  induction idx as [|[k v] idx IH]; cbn [map fst Cache.assign]; [done|].
  intros [Hne Hnotin]%not_elem_of_cons.
  destruct (String.eqb_spec k key) as [->|_]; [done|].
  cbn [map fst app]. by rewrite IH.
Qed.

Lemma objectLike_assign idx key value :
  objectLike idx -> slugShaped key -> objectLike (Cache.assign idx key value).
Proof.
  intros [Hnd Hshape] Hkey. unfold objectLike.
  destruct (decide (key ∈ map fst idx)) as [Hin|Hnotin].
  - by rewrite (keys_assign _ _ _ Hin).
  - rewrite (keys_assign_new _ _ _ Hnotin). split.
    + apply NoDup_app. split; [done|]. split; [|apply NoDup_singleton].
      intros k Hk ->%list_elem_of_singleton. done.
    + apply Forall_app. split; [done|]. by constructor.
Qed.

Lemma objectLike_remove idx key : objectLike idx -> objectLike (Cache.remove idx key).
Proof.
  unfold objectLike, Cache.remove, Cache.Index.
  induction idx as [|[k v] idx IH]; [done|].
  cbn [map fst]. intros [[Hnotin Hnd]%NoDup_cons Hshape].
  inversion Hshape as [|?? Hk Hrest]; subst.
  destruct (IH (conj Hnd Hrest)) as [IH1 IH2].
  rewrite filter_cons. cbn [fst]. destruct (decide (k <> key)); [|done].
  cbn [map fst]. split; [|by constructor].
  apply NoDup_cons. split; [|done].
  intros (e & He & Hin)%list_elem_of_In%in_map_iff. apply Hnotin.
  apply list_elem_of_In, list_elem_of_filter in Hin as [_ Hin].
  rewrite <- He. by apply elem_of_map_2.
Qed.

(** A cache key is empty or holds a colon. *)
Lemma slug_shaped cmp q : slugShaped (toScreenshotCacheSlug cmp q).
Proof.
  unfold slugShaped, toScreenshotCacheSlug.
  destruct (sort cmp q) as [|e l]; [by left|]. right.
  cbn [map]. apply occurs_join_head. rewrite formatEntry_sep, occurs_app.
  cbn [occurs]. rewrite Ascii.eqb_refl. by rewrite orb_true_r.
Qed.

Section Restart.

Variable dirname : string.
Variable parseJson : string -> option Cache.Index.
Variable cmp : string -> string -> Z.

(** The JSON import reads back what [JSON.stringify] writes for an
    object. *)
Hypothesis parse_stringify :
  forall obj, objectLike obj -> parseJson (Cache.JSON_stringify obj) = Some obj.

Lemma store_restartable slug uuid image st :
  objectLike (Cache.screenshotCache st) -> slugShaped slug ->
  restartable dirname parseJson (Cache.store dirname slug uuid image st).2.
Proof.
  intros Hobj Hslug. unfold restartable, loadCache.
  rewrite (store_persisted dirname slug uuid image st).
  rewrite store_result. cbn [snd Cache.screenshotCache].
  split; [by apply objectLike_assign|].
  apply parse_stringify. by apply objectLike_assign.
Qed.

Lemma screenshot_keeps_restartable capture query uuid st r st' :
  succeeds (capture query) ->
  restartable dirname parseJson st ->
  Cache.screenshot dirname capture cmp query uuid st = (r, st') ->
  restartable dirname parseJson st'.
Proof.
  intros Hcapture Hst Hrun.
  apply screenshot_state in Hrun
      as [->|[(e & He & _)|[(image & _ & ->)|(image & _ & _ & ->)]]].
  - done.
  - by rewrite He in Hcapture.
  - apply store_restartable; [apply Hst|apply slug_shaped].
  - apply store_restartable; [|apply slug_shaped].
    apply objectLike_remove, Hst.
Qed.


End Restart.

Lemma readIndex_object obj :
  objectLike obj -> readIndex (Cache.JSON_stringify obj) = Some obj.
Proof. intros _. apply readIndex_stringify. Qed.


(** ** The query string of the embed URL *)

Lemma deserialize_serializeChar a t :
  Url.deserialize (Url.serializeChar a +:+ t) = String a <$> Url.deserialize t.
Proof. destruct a as [[] [] [] [] [] [] [] []]; reflexivity. Qed.

Lemma deserialize_serialize s : Url.deserialize (Url.serialize s) = Some s.
Proof.
  induction s as [|a s IH]; [done|]. cbn [Url.serialize].
  by rewrite deserialize_serializeChar, IH.
Qed.

Lemma serialize_inj s1 s2 : Url.serialize s1 = Url.serialize s2 -> s1 = s2.
Proof.
  intros Heq. apply (f_equal Url.deserialize) in Heq.
  rewrite !deserialize_serialize in Heq. by injection Heq.
Qed.

Lemma serializeChar_safe a : allChars Url.safeChar (Url.serializeChar a) = true.
Proof. destruct a as [[] [] [] [] [] [] [] []]; reflexivity. Qed.

Lemma serialize_safe s : allChars Url.safeChar (Url.serialize s) = true.
Proof.
  induction s as [|a s IH]; [done|]. cbn [Url.serialize].
  by rewrite allChars_app, serializeChar_safe, IH.
Qed.

Lemma allChars_occurs P c s : allChars P s = true -> P c = false -> occurs c s = false.
Proof.
  intros Hs Hc. induction s as [|a s IH]; [done|]. cbn [allChars occurs] in *.
  apply andb_true_iff in Hs as [Ha Hs]. rewrite (IH Hs), orb_false_r.
  destruct (Ascii.eqb_spec a c) as [->|]; [congruence|done].
Qed.

Lemma allChars_impl (P Q : ascii -> bool) s :
  (forall a, P a = true -> Q a = true) -> allChars P s = true -> allChars Q s = true.
Proof.
  intros HPQ. induction s as [|a s IH]; [done|]. cbn [allChars].
  intros [Ha Hs]%andb_true_iff. by rewrite (HPQ a Ha), IH.
Qed.

Lemma countChar_app c s1 s2 :
  countChar c (s1 +:+ s2) = (countChar c s1 + countChar c s2)%nat.
Proof.
  induction s1 as [|a s1 IH]; [done|]. rewrite append_cons. cbn [countChar].
  rewrite IH. lia.
Qed.

Lemma countChar_absent c s : occurs c s = false -> countChar c s = O.
Proof.
  induction s as [|a s IH]; [done|]. cbn [occurs countChar].
  intros [-> Hs]%orb_false_iff. by rewrite IH.
Qed.

Lemma serialize_no_separator s :
  occurs "=" (Url.serialize s) = false /\ occurs "&" (Url.serialize s) = false.
Proof.
  split; by apply (allChars_occurs Url.safeChar _ _ (serialize_safe s)).
Qed.

Lemma serializePair_piece e :
  occurs "&" (Url.serializePair e) = false /\ Url.serializePair e <> "".
Proof.
  unfold Url.serializePair. split.
  - rewrite !occurs_app. cbn [occurs].
    by rewrite !(proj2 (serialize_no_separator _)).
  - destruct (Url.serialize (fst e)); by rewrite ?append_cons, ?append_nil_l.
Qed.

(** X14: the query string that the screenshot handler builds for the
    embed URL holds ASCII letters and digits and [*], [-], [.], [_], [+],
    [%] only, besides one [=] per parameter of the query and one [&]
    between two parameters: no name or value can add a parameter, end
    the query or break the URL. *)
Theorem query_string_alphabet (query : QueryDictionary) :
  allChars (fun a => Url.safeChar a || Ascii.eqb a "=" || Ascii.eqb a "&")
    (Url.URLSearchParams query) = true
  /\ countChar "=" (Url.URLSearchParams query) = length query
  /\ countChar "&" (Url.URLSearchParams query) = pred (length query).
Proof.
  unfold Url.URLSearchParams.
  assert (forall e,
             allChars (fun a => Url.safeChar a || Ascii.eqb a "=" || Ascii.eqb a "&")
               (Url.serializePair e) = true
             /\ countChar "=" (Url.serializePair e) = 1%nat
             /\ countChar "&" (Url.serializePair e) = O) as Hpair.
  { intros e. unfold Url.serializePair.
    assert (forall s,
               allChars (fun a => Url.safeChar a || Ascii.eqb a "=" || Ascii.eqb a "&")
                 (Url.serialize s) = true) as Hsafe.
    { intros s. eapply allChars_impl; [|apply serialize_safe].
      by intros a ->. }
    split; [|split].
    - by rewrite !allChars_app, !Hsafe.
    - rewrite !countChar_app.
      rewrite !(countChar_absent _ _ (proj1 (serialize_no_separator _))). done.
    - rewrite !countChar_app.
      rewrite !(countChar_absent _ _ (proj2 (serialize_no_separator _))). done. }
  induction query as [|e [|e' query] IH]; [done| |].
  - cbn [map join length pred]. apply Hpair.
  - cbn [map] in *. rewrite join_cons2. destruct IH as (IH1 & IH2 & IH3).
    destruct (Hpair e) as (H1 & H2 & H3).
    rewrite !allChars_app, !countChar_app, H1, H2, H3, IH1, IH2, IH3.
    cbn [length pred]. done.
Qed.

Lemma serializePair_inj_list q1 q2 :
  map Url.serializePair q1 = map Url.serializePair q2 ->
  map renderPair q1 = map renderPair q2.
Proof.
  revert q2. induction q1 as [|e1 q1 IH]; intros [|e2 q2]; cbn [map]; try done.
  intros [= Hhead Htail]. f_equal; [|by apply IH].
  unfold Url.serializePair in Hhead.
  change ("=" +:+ ?s) with (String "=" s) in Hhead.
  apply app_sep_inj in Hhead as [Hk Hv];
    [|apply serialize_no_separator..].
  unfold renderPair. by rewrite (serialize_inj _ _ Hk), (serialize_inj _ _ Hv).
Qed.

(** X15: the query string of the embed URL carries the names of the
    parameters and the texts of their values, in order, and nothing
    else: two queries give the same query string exactly when they agree
    on these, so that a sequence value travels as its comma-joined
    string. *)
Theorem query_string_carries_names_and_texts (q1 q2 : QueryDictionary) :
  Url.embedUrl q1 = Url.embedUrl q2 <-> map renderPair q1 = map renderPair q2.
Proof.
  unfold Url.embedUrl, Url.URLSearchParams. split.
  - intros Heq%(inj (String.app _)).
    apply (join_inj "&"%char) in Heq.
    + by apply serializePair_inj_list.
    + apply Forall_forall. intros s (e & <- & _)%list_elem_of_In%in_map_iff.
      apply serializePair_piece.
    + apply Forall_forall. intros s (e & <- & _)%list_elem_of_In%in_map_iff.
      apply serializePair_piece.
  - intros Heq. do 2 f_equal.
    revert q2 Heq. induction q1 as [|e1 q1 IH]; intros [|e2 q2]; cbn [map]; try done.
    intros [= Hk Hv Htail]. unfold Url.serializePair at 1 3.
    by rewrite Hk, Hv, (IH q2 Htail).
Qed.
